(** * arngit: credential vault, guarded-repository registry, threshold watcher

    A shallow embedding of three subsystems of the packages [core],
    [automation], [git] and [command]:

    - the secret cipher and [AccountManager] (package [core]:
      [encryptionKey], [encrypt], [decrypt], [Add], [Remove], [Switch],
      [Current], [Get], [GetPAT]),
    - [ProtectedRepoManager] (package [core], [protected.go]) with the
      handlers [handleProtect] and [handleUnprotect] of package [command],
    - [Watcher] (package [automation]: [NewWatcher], [Start],
      [checkThreshold], [push], [ParseSize], [FormatSize]) together with
      [Service.RepoName] of package [git].

    Go strings are byte sequences and are modelled by [string] (a list of
    8-bit [ascii]); [[]byte] is [list ascii]; Go maps are [gmap]s; machine
    integers are [Z] with their wrap-around written out.  Calls that leave the
    process (file writes, [git], the clock, the random source) take their
    outcome as an explicit argument. *)

From Stdlib Require Import ZArith NArith Ascii String List Lia Bool.
From stdpp Require Import base option list gmap strings pretty.

Local Open Scope string_scope.
Local Open Scope list_scope.
Local Open Scope Z_scope.

(** ** Errors *)

(** [core.ErrorCode]; only the code the registry raises is needed. *)
Definition ErrorCode := string.
Definition ErrGitProtected : ErrorCode := "GIT_PROTECTED".

(** Go [error] values: [core.NewError code nil], [fmt.Errorf], and errors
    handed back by the operating system or by a library. *)
Inductive error :=
| AppError (code : ErrorCode)
| Errorf (msg : string)
| SysError (msg : string).

#[global] Instance error_eq_dec : EqDecision error.
Proof. solve_decision. Defined.

Definition NewError (code : ErrorCode) : error := AppError code.

(** The message [errorRegistry] holds for a code; of its entries only the
    one for [ErrGitProtected] is listed, an unlisted code is its own
    message. *)
Definition errorMessage (code : ErrorCode) : string :=
  if String.eqb code ErrGitProtected then "Repository is protected" else code.

(** The method [Error] of an error value. *)
Definition Error (e : error) : string :=
  match e with
  | AppError code => "[" +:+ code +:+ "] " +:+ errorMessage code
  | Errorf msg => msg
  | SysError msg => msg
  end.

(** A Go pair [(value, error)] of which exactly one part is meaningful. *)
Inductive result (A : Type) :=
| Ok (a : A)
| Err (e : error).
Arguments Ok {A} a.
Arguments Err {A} e.

(** ** The parts of Go's standard library the sources call *)

Module GoStd.

(** *** [strings] *)

Fixpoint HasPrefix (s prefix : string) : bool :=
  match prefix, s with
  | EmptyString, _ => true
  | String p ps, String c cs => if Ascii.eqb p c then HasPrefix cs ps else false
  | String _ _, EmptyString => false
  end.

Definition strrev (s : string) : string :=
  string_of_list_ascii (rev (list_ascii_of_string s)).

Definition HasSuffix (s suffix : string) : bool :=
  HasPrefix (strrev s) (strrev suffix).

(** [strings.TrimSuffix]: [s] without the trailing [suffix], or [s]. *)
Definition TrimSuffix (s suffix : string) : string :=
  if HasSuffix s suffix
  then String.substring 0 (String.length s - String.length suffix)%nat s
  else s.

(** [strings.Split s sep] for a one-byte separator; never empty. *)
Fixpoint Split (sep : ascii) (s : string) : list string :=
  match s with
  | EmptyString => [EmptyString]
  | String c r =>
      if Ascii.eqb c sep then EmptyString :: Split sep r
      else match Split sep r with
           | h :: t => String c h :: t
           | [] => [String c EmptyString]
           end
  end.

(** [strings.Join elems sep]. *)
Fixpoint Join (elems : list string) (sep : string) : string :=
  match elems with
  | [] => ""
  | [e] => e
  | e :: rest => e +:+ sep +:+ Join rest sep
  end.

(** *** [path/filepath] on a system whose separator is [/] *)

Definition IsAbs (path : string) : bool := HasPrefix path "/".

(** One element of the path pushed on the elements kept so far (most
    recent first): empty and [.] elements vanish, [..] removes the element
    before it, is dropped at the root, and is kept at the start of a
    relative path. *)
Definition clean_step (rooted : bool) (kept : list string) (e : string) : list string :=
  if String.eqb e "" then kept
  else if String.eqb e "." then kept
  else if String.eqb e ".." then
    match kept with
    | top :: below => if String.eqb top ".." then e :: kept else below
    | [] => if rooted then [] else [e]
    end
  else e :: kept.

Definition clean_elems (rooted : bool) (path : string) : list string :=
  rev (fold_left (clean_step rooted) (Split "/" path) []).

(** [filepath.Clean]. *)
Definition Clean (path : string) : string :=
  let rooted := IsAbs path in
  let out := Join (clean_elems rooted path) "/" in
  if rooted then "/" +:+ out
  else if String.eqb out "" then "." else out.

(** [filepath.Join] of two elements: empty elements are ignored and the
    result is cleaned. *)
Definition PathJoin (a b : string) : string :=
  if negb (String.eqb a "") then Clean (a +:+ "/" +:+ b)
  else if negb (String.eqb b "") then Clean b
  else "".

(** [filepath.Abs]; [wd] is what [os.Getwd] returns, [None] when it
    fails.  Only a relative path needs the working directory. *)
Definition Abs (wd : option string) (path : string) : option string :=
  if IsAbs path then Some (Clean path)
  else match wd with
       | None => None
       | Some d => Some (PathJoin d path)
       end.

(** The elements [filepath.Rel]'s loop walks over in a cleaned path: a
    rooted path starts with an empty element, the root is that element
    alone, and the empty string has none. *)
Definition rel_elems (p : string) : list string :=
  if String.eqb p "" then []
  else if String.eqb p "/" then [""]
  else Split "/" p.

Fixpoint strip_common (b t : list string) : list string * list string :=
  match b, t with
  | x :: b', y :: t' => if String.eqb x y then strip_common b' t' else (b, t)
  | _, _ => (b, t)
  end.

(** [filepath.Rel basepath targpath]: [None] is the error result. *)
Definition Rel (basepath targpath : string) : option string :=
  let base := Clean basepath in
  let targ := Clean targpath in
  if String.eqb targ base then Some "."
  else
    let base := if String.eqb base "." then "" else base in
    if negb (Bool.eqb (IsAbs base) (IsAbs targ)) then None
    else
      let '(b, t) := strip_common (rel_elems base) (rel_elems targ) in
      match b with
      | [] => Some (Join t "/")
      | e :: _ =>
          if String.eqb e ".." then None
          else Some (Join (map (fun _ => "..") b ++ t) "/")
      end.

(** *** [unicode/utf8] and the conversions between integers and runes *)

Definition byteZ (b : ascii) : Z := Z.of_N (N_of_ascii b).
Definition Zbyte (z : Z) : ascii := ascii_of_N (Z.to_N z).

Definition RuneError : Z := 0xFFFD.
Definition MaxRune : Z := 0x10FFFF.

Definition between (lo x hi : Z) : bool := (lo <=? x) && (x <=? hi).

(** Continuation byte [b] in [lo..hi], as its value. *)
Definition cont (lo hi : Z) (s : string) : option (Z * string) :=
  match s with
  | String b r => if between lo (byteZ b) hi then Some (byteZ b, r) else None
  | EmptyString => None
  end.

(** [utf8.DecodeRuneInString]: the first rune of a non-empty string and
    its width in bytes; an invalid or short encoding is [RuneError] of
    width 1. *)
Definition DecodeRuneInString (s : string) : Z * nat :=
  match s with
  | EmptyString => (RuneError, 0%nat)
  | String b0 r0 =>
      let x := byteZ b0 in
      if x <? 0x80 then (x, 1%nat)
      else if between 0xC2 x 0xDF then
        match cont 0x80 0xBF r0 with
        | Some (b1, _) => (Z.lor (Z.shiftl (Z.land x 0x1F) 6) (Z.land b1 0x3F), 2%nat)
        | None => (RuneError, 1%nat)
        end
      else if between 0xE0 x 0xEF then
        let lo := if x =? 0xE0 then 0xA0 else 0x80 in
        let hi := if x =? 0xED then 0x9F else 0xBF in
        match cont lo hi r0 with
        | Some (b1, r1) =>
            match cont 0x80 0xBF r1 with
            | Some (b2, _) =>
                (Z.lor (Z.lor (Z.shiftl (Z.land x 0x0F) 12)
                              (Z.shiftl (Z.land b1 0x3F) 6))
                       (Z.land b2 0x3F), 3%nat)
            | None => (RuneError, 1%nat)
            end
        | None => (RuneError, 1%nat)
        end
      else if between 0xF0 x 0xF4 then
        let lo := if x =? 0xF0 then 0x90 else 0x80 in
        let hi := if x =? 0xF4 then 0x8F else 0xBF in
        match cont lo hi r0 with
        | Some (b1, r1) =>
            match cont 0x80 0xBF r1 with
            | Some (b2, r2) =>
                match cont 0x80 0xBF r2 with
                | Some (b3, _) =>
                    (Z.lor (Z.lor (Z.lor (Z.shiftl (Z.land x 0x07) 18)
                                         (Z.shiftl (Z.land b1 0x3F) 12))
                                  (Z.shiftl (Z.land b2 0x3F) 6))
                           (Z.land b3 0x3F), 4%nat)
                | None => (RuneError, 1%nat)
                end
            | None => (RuneError, 1%nat)
            end
        | None => (RuneError, 1%nat)
        end
      else (RuneError, 1%nat)
  end.

Definition drop_string (n : nat) (s : string) : string :=
  String.substring n (String.length s - n)%nat s.

(** [for i, c := range s]: the byte index and the rune of every
    iteration.  Each iteration consumes at least one byte, so [fuel] equal
    to the length of the string is never exhausted. *)
Fixpoint range_from (fuel : nat) (i : Z) (s : string) : list (Z * Z) :=
  match fuel with
  | O => []
  | S fuel' =>
      match s with
      | EmptyString => []
      | _ =>
          let '(c, w) := DecodeRuneInString s in
          (i, c) :: range_from fuel' (i + Z.of_nat w) (drop_string w s)
      end
  end.

Definition range_string (s : string) : list (Z * Z) :=
  range_from (String.length s) 0 s.

(** [string(rune)]: the UTF-8 encoding of a code point; values outside
    the valid range, and surrogates, become the encoding of U+FFFD. *)
Definition string_of_rune (r : Z) : string :=
  let bytes l := string_of_list_ascii (map Zbyte l) in
  if (r <? 0) || (MaxRune <? r) || between 0xD800 r 0xDFFF then
    bytes [0xEF; 0xBF; 0xBD]
  else if r <=? 0x7F then bytes [r]
  else if r <=? 0x7FF then
    bytes [Z.lor 0xC0 (Z.shiftr r 6); Z.lor 0x80 (Z.land r 0x3F)]
  else if r <=? 0xFFFF then
    bytes [Z.lor 0xE0 (Z.shiftr r 12);
           Z.lor 0x80 (Z.land (Z.shiftr r 6) 0x3F);
           Z.lor 0x80 (Z.land r 0x3F)]
  else
    bytes [Z.lor 0xF0 (Z.shiftr r 18);
           Z.lor 0x80 (Z.land (Z.shiftr r 12) 0x3F);
           Z.lor 0x80 (Z.land (Z.shiftr r 6) 0x3F);
           Z.lor 0x80 (Z.land r 0x3F)].

(** Wrap-around of [uint64] arithmetic, and the conversion [int32(x)] of
    an unsigned value: the low 32 bits read in two's complement. *)
Definition uint64 (z : Z) : Z := z mod 2 ^ 64.
Definition int64 (z : Z) : Z := (z + 2 ^ 63) mod 2 ^ 64 - 2 ^ 63.
Definition int32 (z : Z) : Z := (z + 2 ^ 31) mod 2 ^ 32 - 2 ^ 31.

(** *** [strconv] *)

Definition MaxInt64 : Z := 2 ^ 63 - 1.
Definition MinInt64 : Z := - 2 ^ 63.

Definition is_digit (c : ascii) : bool := between 48 (byteZ c) 57.

(** The value of a non-empty string of decimal digits. *)
Fixpoint digits_value (acc : Z) (s : string) : option Z :=
  match s with
  | EmptyString => Some acc
  | String c r =>
      if is_digit c then digits_value (acc * 10 + (byteZ c - 48)) r else None
  end.

Definition ErrSyntax : error := SysError "invalid syntax".
Definition ErrRange : error := SysError "value out of range".

(** [strconv.ParseInt s 10 64]: an optional sign and decimal digits.  A
    syntax error gives 0; a value out of range gives the nearest bound
    together with the range error. *)
Definition ParseInt (s : string) : Z * option error :=
  let '(neg, ds) :=
    match s with
    | String "-" r => (true, r)
    | String "+" r => (false, r)
    | _ => (false, s)
    end in
  match ds with
  | EmptyString => (0, Some ErrSyntax)
  | _ =>
      match digits_value 0 ds with
      | None => (0, Some ErrSyntax)
      | Some n =>
          let v := if neg then - n else n in
          if v <? MinInt64 then (MinInt64, Some ErrRange)
          else if MaxInt64 <? v then (MaxInt64, Some ErrRange)
          else (v, None)
      end
  end.

(** [strconv.Atoi] on a platform whose [int] has 64 bits. *)
Definition Atoi (s : string) : Z * option error := ParseInt s.

(** [strconv.Itoa]. *)
Definition Itoa (z : Z) : string := pretty z.

(** *** [io.ReadFull] from a reader holding the bytes [r] *)

Definition ReadFull (r : list ascii) (n : nat) : option (list ascii) :=
  if (n <=? length r)%nat then Some (firstn n r) else None.

End GoStd.

(** ** The protected-repository manager (package [core], file
    [internal/core/protected.go]) *)

Module Registry.
Import GoStd.

(** [ProtectedRepo]; times are instants of the clock, and [LastAccessed]
    is [None] while it holds Go's zero time. *)
Record ProtectedRepo := {
  Path : string;
  Password : string;
  ProtectedAt : Z;
  LastAccessed : option Z;
}.

(** [ProtectedRepoManager]: the document's location and the guards by
    canonical path.  The map holds pointers in Go; no operation below
    shares one between two keys, so the map holds the records here. *)
Record ProtectedRepoManager := {
  path : string;
  repos : gmap string ProtectedRepo;
}.

Definition with_repos (pm : ProtectedRepoManager)
    (m : gmap string ProtectedRepo) : ProtectedRepoManager :=
  {| path := path pm; repos := m |}.

(** The keys a [range] over the map visits, in one of the orders Go may
    pick. *)
Definition range_keys (pm : ProtectedRepoManager) : list string :=
  (map_to_list (repos pm)).*1.

Definition isSubPath (path parentPath : string) : bool :=
  match Rel parentPath path with
  | None => false
  | Some rel =>
      negb (String.eqb rel "..") && negb (IsAbs rel) && negb (String.eqb rel ".")
  end.

Definition hashPassword (password : string) : string :=
  let hash :=
    fold_left (fun hash '(i, c) => uint64 (uint64 (uint64 (hash * 31) + c) + i))
              (range_string password) 0 in
  string_of_rune (int32 hash).

Definition verifyPassword (password hash : string) : bool :=
  String.eqb (hashPassword password) hash.

Definition IsProtected (wd : option string) (pm : ProtectedRepoManager)
    (repoPath : string) : bool :=
  match Abs wd repoPath with
  | None => false
  | Some absPath =>
      existsb (fun protectedPath =>
                 String.eqb absPath protectedPath || isSubPath absPath protectedPath)
              (range_keys pm)
  end.

Definition GetProtection (wd : option string) (pm : ProtectedRepoManager)
    (repoPath : string) : option ProtectedRepo :=
  match Abs wd repoPath with
  | None => None
  | Some absPath =>
      match repos pm !! absPath with
      | Some repo => Some repo
      | None =>
          snd <$> List.find (fun '(protectedPath, _) => isSubPath absPath protectedPath)
                            (map_to_list (repos pm))
      end
  end.

(** [Protect]; [now] is the clock and [saved] what writing the document
    returns.  The result is the returned error and the manager
    afterwards. *)
Definition Protect (wd : option string) (now : Z) (saved : option error)
    (pm : ProtectedRepoManager) (repoPath password : string)
    : option error * ProtectedRepoManager :=
  match Abs wd repoPath with
  | None => (Some (SysError "getwd"), pm)
  | Some absPath =>
      let hashedPassword :=
        if negb (String.eqb password "") then hashPassword password else "" in
      (saved,
       with_repos pm
         (<[absPath := {| Path := absPath; Password := hashedPassword;
                          ProtectedAt := now; LastAccessed := None |}]> (repos pm)))
  end.

Definition Unprotect (wd : option string) (saved : option error)
    (pm : ProtectedRepoManager) (repoPath password : string)
    : option error * ProtectedRepoManager :=
  match Abs wd repoPath with
  | None => (Some (SysError "getwd"), pm)
  | Some absPath =>
      match repos pm !! absPath with
      | None => (None, pm)
      | Some repo =>
          if negb (String.eqb (Password repo) "")
             && negb (verifyPassword password (Password repo))
          then (Some (NewError ErrGitProtected), pm)
          else (saved, with_repos pm (delete absPath (repos pm)))
      end
  end.

Definition VerifyAccess (wd : option string) (pm : ProtectedRepoManager)
    (repoPath password : string) : bool :=
  match GetProtection wd pm repoPath with
  | None => true
  | Some repo =>
      if String.eqb (Password repo) "" then true
      else verifyPassword password (Password repo)
  end.

(** [UpdateLastAccessed] discards both the error of [filepath.Abs] (the
    path is then empty) and the error of the write. *)
Definition UpdateLastAccessed (wd : option string) (now : Z)
    (pm : ProtectedRepoManager) (repoPath : string) : ProtectedRepoManager :=
  let absPath := default "" (Abs wd repoPath) in
  match repos pm !! absPath with
  | Some repo =>
      with_repos pm
        (<[absPath := {| Path := Path repo; Password := Password repo;
                         ProtectedAt := ProtectedAt repo;
                         LastAccessed := Some now |}]> (repos pm))
  | None => pm
  end.

Definition NewProtectedRepoManager (path : string) : ProtectedRepoManager :=
  {| path := path; repos := ∅ |}.

(** *** The two command handlers in front of the manager (package
    [command], file [internal/command/system_commands.go]) *)

Inductive uiMsg :=
| UIError (s : string) | UIWarning (s : string) | UISuccess (s : string)
| UIInfo (s : string) | UIHint (s : string).

(** Whether the arguments carry [--password] or [-p]. *)
Definition wants_password (args : list string) : bool :=
  existsb (fun arg => String.eqb arg "--password" || String.eqb arg "-p") args.

(** [handleProtect]: [getwd] is the outcome of [os.Getwd] and [prompt] what
    the user types when asked for a password. *)
Definition handleProtect (getwd : result string) (now : Z) (saved : option error)
    (args : list string) (prompt : string) (pm : ProtectedRepoManager)
    : option error * ProtectedRepoManager * list uiMsg :=
  match getwd with
  | Err err => (Some err, pm, [UIError "Failed to get current directory"])
  | Ok cwd =>
      if IsProtected (Some cwd) pm cwd then
        (None, pm, [UIWarning "This repository is already protected"])
      else
        let password := if wants_password args then prompt else "" in
        match Protect (Some cwd) now saved pm cwd password with
        | (Some err, pm') => (Some err, pm', [UIError (Error err)])
        | (None, pm') =>
            (None, pm',
             [UISuccess "Repository protected"]
             ++ (if negb (String.eqb password "")
                 then [UIInfo "Password protection enabled"] else [])
             ++ [UIHint "All push operations will require confirmation"])
        end
  end.

Definition handleUnprotect (getwd : result string) (saved : option error)
    (prompt : string) (pm : ProtectedRepoManager)
    : option error * ProtectedRepoManager * list uiMsg :=
  match getwd with
  | Err err => (Some err, pm, [UIError "Failed to get current directory"])
  | Ok cwd =>
      match GetProtection (Some cwd) pm cwd with
      | None => (None, pm, [UIInfo "This repository is not protected"])
      | Some protection =>
          let password :=
            if negb (String.eqb (Password protection) "") then prompt else "" in
          match Unprotect (Some cwd) saved pm cwd password with
          | (Some err, pm') =>
              (Some err, pm', [UIError "Failed to unprotect: invalid password"])
          | (None, pm') => (None, pm', [UISuccess "Protection removed"])
          end
      end
  end.

End Registry.

(** ** [encoding/base64], the standard encoding with padding *)

Module Base64.

(** Six bits, most significant first. *)
Definition sextet : Type := bool * bool * bool * bool * bool * bool.

Definition sextet_index (s : sextet) : nat :=
  let '(b5, b4, b3, b2, b1, b0) := s in
  (32 * Nat.b2n b5 + 16 * Nat.b2n b4 + 8 * Nat.b2n b3
   + 4 * Nat.b2n b2 + 2 * Nat.b2n b1 + Nat.b2n b0)%nat.

Definition encodeStd : string :=
  "ABCDEFGHIJKLMNOPQRSTUVWXYZabcdefghijklmnopqrstuvwxyz0123456789+/".

Definition padChar : ascii := "="%char.

Definition enc6 (s : sextet) : ascii :=
  nth (sextet_index s) (list_ascii_of_string encodeStd) padChar.

Definition all_sextets : list sextet :=
  b5 ← [false; true]; b4 ← [false; true]; b3 ← [false; true];
  b2 ← [false; true]; b1 ← [false; true]; b0 ← [false; true];
  [(b5, b4, b3, b2, b1, b0)].

(** The decoding table: the sextet of a character of the alphabet. *)
Definition dec6 (c : ascii) : option sextet :=
  List.find (fun s => Ascii.eqb (enc6 s) c) all_sextets.

(** [Ascii] lists the bits of a byte least significant first. *)
Definition quantum3 (x y z : ascii) : list ascii :=
  let 'Ascii x0 x1 x2 x3 x4 x5 x6 x7 := x in
  let 'Ascii y0 y1 y2 y3 y4 y5 y6 y7 := y in
  let 'Ascii z0 z1 z2 z3 z4 z5 z6 z7 := z in
  [enc6 (x7, x6, x5, x4, x3, x2); enc6 (x1, x0, y7, y6, y5, y4);
   enc6 (y3, y2, y1, y0, z7, z6); enc6 (z5, z4, z3, z2, z1, z0)].

Definition zero : ascii := Ascii false false false false false false false false.

Fixpoint encode (src : list ascii) : list ascii :=
  match src with
  | [] => []
  | [x] => firstn 2 (quantum3 x zero zero) ++ [padChar; padChar]
  | [x; y] => firstn 3 (quantum3 x y zero) ++ [padChar]
  | x :: y :: z :: rest => quantum3 x y z ++ encode rest
  end.

Definition EncodeToString (src : list ascii) : string :=
  string_of_list_ascii (encode src).

Definition bytes3 (s0 s1 s2 s3 : sextet) : ascii * ascii * ascii :=
  let '(a5, a4, a3, a2, a1, a0) := s0 in
  let '(b5, b4, b3, b2, b1, b0) := s1 in
  let '(c5, c4, c3, c2, c1, c0) := s2 in
  let '(d5, d4, d3, d2, d1, d0) := s3 in
  (Ascii b4 b5 a0 a1 a2 a3 a4 a5,
   Ascii c2 c3 c4 c5 b0 b1 b2 b3,
   Ascii d0 d1 d2 d3 d4 d5 c0 c1).

Definition CorruptInputError : error := SysError "illegal base64 data".

(** Quanta of four characters; padding may only close the input.  The
    bits of the last sextet that padding leaves unused are not checked (the
    decoder is not strict). *)
Fixpoint decode (s : list ascii) : option (list ascii) :=
  match s with
  | [] => Some []
  | c0 :: c1 :: c2 :: c3 :: rest =>
      match dec6 c0, dec6 c1 with
      | Some s0, Some s1 =>
          if Ascii.eqb c2 padChar then
            if Ascii.eqb c3 padChar then
              match rest with
              | [] => Some [(bytes3 s0 s1 s0 s0).1.1]
              | _ => None
              end
            else None
          else
            match dec6 c2 with
            | Some s2 =>
                if Ascii.eqb c3 padChar then
                  match rest with
                  | [] => let '(x, y, _) := bytes3 s0 s1 s2 s0 in Some [x; y]
                  | _ => None
                  end
                else
                  match dec6 c3 with
                  | Some s3 =>
                      let '(x, y, z) := bytes3 s0 s1 s2 s3 in
                      (fun tl => x :: y :: z :: tl) <$> decode rest
                  | None => None
                  end
            | None => None
            end
      | _, _ => None
      end
  | _ => None
  end.

Definition is_newline (c : ascii) : bool :=
  Ascii.eqb c "010"%char || Ascii.eqb c "013"%char.

(** [DecodeString]: carriage returns and line feeds are skipped wherever
    they stand. *)
Definition DecodeString (s : string) : result (list ascii) :=
  match decode (List.filter (fun c => negb (is_newline c)) (list_ascii_of_string s)) with
  | Some bs => Ok bs
  | None => Err CorruptInputError
  end.

End Base64.

(** ** The primitives of [crypto/sha256], [crypto/aes] and [crypto/cipher] *)

(** The hash and the authenticated cipher are used through their
    interfaces.  [gcmSeal key nonce plaintext] is what
    [cipher.AEAD.Seal nil nonce plaintext nil] returns for the GCM of the AES
    block of [key] (the ciphertext followed by the tag), [gcmOpen] is
    [cipher.AEAD.Open] with [None] for a failed authentication. *)
Class Crypto := {
  Sum256 : list ascii -> list ascii;
  gcmSeal : list ascii -> list ascii -> list ascii -> list ascii;
  gcmOpen : list ascii -> list ascii -> list ascii -> option (list ascii);
}.

(** What the libraries promise: digests of 32 bytes, and opening what was
    sealed under the same 32-byte key and 12-byte nonce gives the plaintext
    back. *)
Class CryptoSpec (C : Crypto) : Prop := {
  Sum256_length : forall m, length (Sum256 m) = 32%nat;
  gcmOpen_Seal : forall key nonce plaintext,
      length key = 32%nat -> length nonce = 12%nat ->
      gcmOpen key nonce (gcmSeal key nonce plaintext) = Some plaintext;
}.

(** The functions of [strings] that are taken as given. *)
Class GoStrings := {
  TrimSpace : string -> string;
  ToUpper : string -> string;
}.

(** ** The secret cipher (package [core]: [encryptionKey], [encrypt],
    [decrypt]) *)

Module Cipher.
Import GoStd.

(** What [os.Hostname] and [os.UserHomeDir] return; the code discards
    their errors, which leaves the empty string. *)
Record Machine := { hostname : string; homeDir : string }.

Section WithCrypto.
Context {C : Crypto}.

Definition encryptionKey (m : Machine) : list ascii :=
  let seed := hostname m +:+ homeDir m +:+ "arngit-secret-sauce" in
  Sum256 (list_ascii_of_string seed).

(** [aes.NewCipher]: the key must have 16, 24 or 32 bytes.  The block is
    represented by its key. *)
Definition NewCipher (key : list ascii) : result (list ascii) :=
  if (length key =? 16)%nat || (length key =? 24)%nat || (length key =? 32)%nat
  then Ok key else Err (SysError "crypto/aes: invalid key size").

(** [cipher.NewGCM] accepts every block of 16 bytes, hence every AES
    block; the AEAD is again represented by the key. *)
Definition NewGCM (block : list ascii) : result (list ascii) := Ok block.

Definition NonceSize : nat := 12.

(** [encrypt]; [rand] holds the bytes [rand.Reader] can deliver. *)
Definition encrypt (m : Machine) (rand : list ascii) (plaintext : string)
    : result string :=
  match NewCipher (encryptionKey m) with
  | Err err => Err err
  | Ok block =>
      match NewGCM block with
      | Err err => Err err
      | Ok gcm =>
          match ReadFull rand NonceSize with
          | None => Err (SysError "unexpected EOF")
          | Some nonce =>
              let ciphertext :=
                nonce ++ gcmSeal gcm nonce (list_ascii_of_string plaintext) in
              Ok (Base64.EncodeToString ciphertext)
          end
      end
  end.

Definition decrypt (m : Machine) (ciphertext : string) : result string :=
  match Base64.DecodeString ciphertext with
  | Err err => Err err
  | Ok data =>
      match NewCipher (encryptionKey m) with
      | Err err => Err err
      | Ok block =>
          match NewGCM block with
          | Err err => Err err
          | Ok gcm =>
              if (length data <? NonceSize)%nat
              then Err (Errorf "ciphertext too short")
              else
                let nonce := firstn NonceSize data in
                let ciphertext := string_of_list_ascii (skipn NonceSize data) in
                match gcmOpen gcm nonce (list_ascii_of_string ciphertext) with
                | None => Err (SysError "cipher: message authentication failed")
                | Some plaintext => Ok (string_of_list_ascii plaintext)
                end
          end
      end
  end.

End WithCrypto.
End Cipher.

(** ** The account manager (package [core]: [Account],
    [AccountManager] and its methods) *)

Module Vault.
Import GoStd Cipher.

Record Account := {
  Name : string;
  Username : string;
  Email : string;
  PAT : string;
  IsDefault : bool;
  CreatedAt : Z;
  UpdatedAt : Z;
}.

Definition set_IsDefault (b : bool) (acc : Account) : Account :=
  {| Name := Name acc; Username := Username acc; Email := Email acc;
     PAT := PAT acc; IsDefault := b;
     CreatedAt := CreatedAt acc; UpdatedAt := UpdatedAt acc |}.

(** [AccountManager].  The map holds one pointer per name and nothing
    else refers to the records, so the map holds the records here. *)
Record AccountManager := {
  dir : string;
  accounts : gmap string Account;
  current : string;
}.

Definition NewAccountManager (dir : string) : AccountManager :=
  {| dir := dir; accounts := ∅; current := "" |}.

(** The key a [for n := range m] yields first.  Go leaves the order
    unspecified; [seed] selects one of the keys, and every key is selected
    by some seed. *)
Definition range_first (m : gmap string Account) (seed : nat) : option string :=
  let names := (map_to_list m).*1 in
  names !! (seed mod length names)%nat.

Section WithLibraries.
Context {C : Crypto} {S : GoStrings}.

(** [Add]; [rand] feeds the nonce, [now] is the clock and [saved] what
    writing the record returns. *)
Definition Add (m : Machine) (rand : list ascii) (now : Z) (saved : option error)
    (am : AccountManager) (name username email pat : string)
    : option error * AccountManager :=
  match accounts am !! name with
  | Some _ => (Some (Errorf ("account '" +:+ name +:+ "' already exists")), am)
  | None =>
      match encrypt m rand (TrimSpace pat) with
      | Err err => (Some (Errorf ("failed to encrypt PAT: " +:+ Error err)), am)
      | Ok encryptedPAT =>
          let acc := {| Name := name; Username := username; Email := email;
                        PAT := encryptedPAT;
                        IsDefault := bool_decide (size (accounts am) = 0%nat);
                        CreatedAt := now; UpdatedAt := now |} in
          match saved with
          | Some err => (Some err, am)
          | None =>
              (None,
               {| dir := dir am;
                  accounts := <[name := acc]> (accounts am);
                  current := if IsDefault acc then name else current am |})
          end
      end
  end.

(** [GetPAT]. *)
Definition GetPAT (m : Machine) (am : AccountManager) (name : string)
    : result string :=
  match accounts am !! name with
  | None => Err (Errorf ("account '" +:+ name +:+ "' not found"))
  | Some acc =>
      match decrypt m (PAT acc) with
      | Err err => Err err
      | Ok pat => Ok (TrimSpace pat)
      end
  end.

End WithLibraries.

(** [Remove]; [removed] is what deleting the record's file returns and
    [seed] fixes the iteration order of the loop that picks the next
    current account. *)
Definition Remove (removed : option error) (seed : nat)
    (am : AccountManager) (name : string) : option error * AccountManager :=
  match accounts am !! name with
  | None => (Some (Errorf ("account '" +:+ name +:+ "' not found")), am)
  | Some _ =>
      match removed with
      | Some err => (Some err, am)
      | None =>
          let accounts' := delete name (accounts am) in
          (None,
           {| dir := dir am;
              accounts := accounts';
              current := if String.eqb (current am) name
                         then default "" (range_first accounts' seed)
                         else current am |})
      end
  end.

(** [Switch]; the errors of the writes are discarded. *)
Definition Switch (am : AccountManager) (name : string)
    : option error * AccountManager :=
  match accounts am !! name with
  | None => (Some (Errorf ("account '" +:+ name +:+ "' not found")), am)
  | Some _ =>
      (None,
       {| dir := dir am;
          accounts := map_imap (fun n acc => Some (set_IsDefault (String.eqb n name) acc))
                               (accounts am);
          current := name |})
  end.

Definition Current (am : AccountManager) : option Account :=
  if String.eqb (current am) "" then None else accounts am !! current am.

Definition CurrentName (am : AccountManager) : string := current am.

Definition Get (am : AccountManager) (name : string) : option Account :=
  accounts am !! name.

(** The identities whose is-active flag is set. *)
Definition defaults (am : AccountManager) : list string :=
  (map_to_list (filter (fun kv => IsDefault kv.2 = true) (accounts am))).*1.

(** A call of one of the three mutating operations, with the outcomes of
    what it asks of the outside. *)
Inductive call :=
| CallAdd (rand : list ascii) (now : Z) (saved : option error)
          (name username email pat : string)
| CallRemove (removed : option error) (seed : nat) (name : string)
| CallSwitch (name : string).

Section Runs.
Context {C : Crypto} {S : GoStrings}.

Definition step (m : Machine) (am : AccountManager) (c : call) : AccountManager :=
  match c with
  | CallAdd rand now saved name username email pat =>
      (Add m rand now saved am name username email pat).2
  | CallRemove removed seed name => (Remove removed seed am name).2
  | CallSwitch name => (Switch am name).2
  end.

(** The manager after a sequence of calls. *)
Definition run (m : Machine) (am : AccountManager) (calls : list call)
    : AccountManager :=
  fold_left (step m) calls am.

End Runs.

End Vault.

(** ** The threshold watcher (package [automation]: [Watcher],
    [WatcherConfig] and the functions around them) *)

(** The functions of [time] and [fmt] that are taken as given.  Instants
    and durations are counted in nanoseconds.  [ParseDuration] is [None] on
    an error; [Sprintf_1f n d] is [fmt.Sprintf "%.1f"] of the quotient of
    [n] by [d] in floating point. *)
Class GoTime := {
  ParseDuration : string -> option Z;
  DurationString : Z -> string;
  DurationRound : Z -> Z -> Z;
}.

Class GoFmt := {
  Sprintf_1f : Z -> Z -> string;
}.

Module Watcher.
Import GoStd Registry.

Definition ThresholdType := string.
Definition ThresholdCommits : ThresholdType := "commits".
Definition ThresholdTime : ThresholdType := "time".
Definition ThresholdSize : ThresholdType := "size".

Definition Second : Z := 1000000000.

(** [Watcher].  A callback field is [true] when a function is assigned to
    it; [ctx] and [cancel] are represented by the signals [Start] receives. *)
Record Watcher := {
  thresholdType : ThresholdType;
  thresholdValue : string;
  interval : Z;
  remote : string;
  branch : string;
  lastPushTime : Z;
  OnPush : bool;
  OnError : bool;
  OnCheck : bool;
  OnSkipped : bool;
}.

Record WatcherConfig := {
  cfgThresholdType : ThresholdType;
  cfgThresholdValue : string;
  cfgInterval : Z;
  cfgRemote : string;
  cfgBranch : string;
}.

(** What the git service answers while a watcher is built. *)
Record Repo := {
  IsRepo : bool;
  CurrentBranch : result string;
}.

(** What the watcher's collaborators answer during one poll: the pending
    commit count when the threshold is checked and again when the push is
    reported, the size of the unpushed changes, the URL of [origin], the
    outcome of [git push], the working directory, the registry of the
    engine, and the clock when the threshold is checked and after the
    push. *)
Record Poll := {
  PendingCommitCount : result Z;
  PendingCommitCountAgain : result Z;
  UnpushedChangesSize : result Z;
  GetRemoteURL : result string;
  Push : option error;
  Getwd : option string;
  ProtectedRepos : ProtectedRepoManager;
  Now : Z;
  NowPushed : Z;
}.

(** What a poll does to the outside: the question put to the registry, the
    push, and the callbacks. *)
Inductive event :=
| CallIsProtected (repoPath : string) (answer : bool)
| CallPush (remote branch : string)
| CbOnPush (remote branch : string) (commitCount : Z)
| CbOnError (err : error)
| CbOnCheck (thresholdType : ThresholdType) (current threshold : string)
| CbOnSkipped (reason : string).

(** The first component of a Go pair [(value, error)]: the value, which
    the callee leaves at zero when it fails. *)
Definition value_or {A} (zero : A) (r : result A) : A :=
  match r with Ok a => a | Err _ => zero end.

Definition set_lastPushTime (t : Z) (w : Watcher) : Watcher :=
  {| thresholdType := thresholdType w; thresholdValue := thresholdValue w;
     interval := interval w; remote := remote w; branch := branch w;
     lastPushTime := t;
     OnPush := OnPush w; OnError := OnError w;
     OnCheck := OnCheck w; OnSkipped := OnSkipped w |}.

(** [RepoName] of the git service (package [git]), from the outcome of
    [GetRemoteURL "origin"], which is the trimmed output of
    [git remote get-url origin]. *)
Definition RepoName (url : result string) : result string :=
  match url with
  | Err err => Err err
  | Ok url =>
      let url := TrimSuffix url ".git" in
      let parts := Split "/" url in
      match last parts with
      | Some name => Ok name
      | None => Err (Errorf "could not parse repo name")
      end
  end.

(** [NewWatcher]; [now] is the clock. *)
Definition NewWatcher (repo : Repo) (now : Z) (cfg : WatcherConfig) : result Watcher :=
  if negb (IsRepo repo) then Err (Errorf "not a git repository")
  else
    let branch :=
      if String.eqb (cfgBranch cfg) "" then CurrentBranch repo else Ok (cfgBranch cfg) in
    match branch with
    | Err err => Err err
    | Ok branch =>
        let remote := if String.eqb (cfgRemote cfg) "" then "origin" else cfgRemote cfg in
        let interval := if cfgInterval cfg =? 0 then 10 * Second else cfgInterval cfg in
        let type :=
          if String.eqb (cfgThresholdType cfg) "" then ThresholdCommits
          else cfgThresholdType cfg in
        let value :=
          if String.eqb (cfgThresholdValue cfg) "" then
            if String.eqb type ThresholdCommits then "3"
            else if String.eqb type ThresholdTime then "5m"
            else if String.eqb type ThresholdSize then "1MB"
            else ""
          else cfgThresholdValue cfg in
        Ok {| thresholdType := type; thresholdValue := value;
              interval := interval; remote := remote; branch := branch;
              lastPushTime := now;
              OnPush := false; OnError := false;
              OnCheck := false; OnSkipped := false |}
    end.

Section WithLibraries.
Context {S : GoStrings} {T : GoTime} {F : GoFmt}.

(** [ParseSize]; the product wraps around like [int64]. *)
Definition ParseSize (s : string) : Z :=
  let s := ToUpper (TrimSpace s) in
  let '(multiplier, s) :=
    if HasSuffix s "KB" then (1024, TrimSuffix s "KB")
    else if HasSuffix s "MB" then (1024 * 1024, TrimSuffix s "MB")
    else if HasSuffix s "GB" then (1024 * 1024 * 1024, TrimSuffix s "GB")
    else (1, s) in
  let value := fst (ParseInt (TrimSpace s)) in
  int64 (value * multiplier).

Definition FormatSize (bytes : Z) : string :=
  if 1024 * 1024 * 1024 <=? bytes then Sprintf_1f bytes (1024 * 1024 * 1024) +:+ " GB"
  else if 1024 * 1024 <=? bytes then Sprintf_1f bytes (1024 * 1024) +:+ " MB"
  else if 1024 <=? bytes then Sprintf_1f bytes 1024 +:+ " KB"
  else Itoa bytes +:+ " B".

Definition when (b : bool) (e : event) : list event := if b then [e] else [].

(** [checkThreshold]: whether to push, the reason, and the callbacks
    made on the way. *)
Definition checkThreshold (w : Watcher) (p : Poll) : bool * string * list event :=
  if String.eqb (thresholdType w) ThresholdCommits then
    match PendingCommitCount p with
    | Err _ => (false, "", [])
    | Ok count =>
        let threshold := fst (Atoi (thresholdValue w)) in
        let checked :=
          when (OnCheck w) (CbOnCheck ThresholdCommits (Itoa count) (thresholdValue w)) in
        if threshold <=? count then
          (true,
           Itoa count +:+ " commits pending (threshold: " +:+ Itoa threshold +:+ ")",
           checked)
        else if 0 <? count then
          (false, Itoa count +:+ "/" +:+ Itoa threshold +:+ " commits", checked)
        else (false, "", checked)
    end
  else if String.eqb (thresholdType w) ThresholdTime then
    match ParseDuration (thresholdValue w) with
    | None => (false, "", [])
    | Some duration =>
        let elapsed := Now p - lastPushTime w in
        let checked :=
          when (OnCheck w)
            (CbOnCheck ThresholdTime (DurationString (DurationRound elapsed Second))
                       (DurationString duration)) in
        if duration <=? elapsed then
          let count := value_or 0 (PendingCommitCount p) in
          if 0 <? count then
            (true, "time threshold reached (" +:+ thresholdValue w +:+ ")", checked)
          else (false, "", checked)
        else (false, "", checked)
    end
  else if String.eqb (thresholdType w) ThresholdSize then
    match UnpushedChangesSize p with
    | Err _ => (false, "", [])
    | Ok size =>
        let threshold := ParseSize (thresholdValue w) in
        let checked :=
          when (OnCheck w)
            (CbOnCheck ThresholdSize (FormatSize size) (FormatSize threshold)) in
        if threshold <=? size then
          (true, "size threshold reached (" +:+ FormatSize size +:+ ")", checked)
        else (false, "", checked)
    end
  else (false, "", []).

(** [push]: the returned error, the watcher afterwards, and the calls
    made. *)
Definition push (w : Watcher) (p : Poll) : option error * Watcher * list event :=
  let repoName := value_or "" (RepoName (GetRemoteURL p)) in
  if IsProtected (Getwd p) (ProtectedRepos p) repoName then
    (Some (Errorf ("repository '" +:+ repoName +:+ "' is protected - skipping auto-push")),
     w, [CallIsProtected repoName true])
  else
    match Push p with
    | Some err =>
        (Some err, w, [CallIsProtected repoName false; CallPush (remote w) (branch w)])
    | None =>
        (None, set_lastPushTime (NowPushed p) w,
         [CallIsProtected repoName false; CallPush (remote w) (branch w)])
    end.

(** The body of [Start]'s loop for one tick of the ticker. *)
Definition tick (w : Watcher) (p : Poll) : Watcher * list event :=
  let '(shouldPush, reason, checked) := checkThreshold w p in
  if shouldPush then
    let count := value_or 0 (PendingCommitCountAgain p) in
    match push w p with
    | (Some err, w', calls) => (w', checked ++ calls ++ when (OnError w) (CbOnError err))
    | (None, w', calls) =>
        (w', checked ++ calls ++ when (OnPush w) (CbOnPush (remote w) (branch w) count))
    end
  else if negb (String.eqb reason "") then
    (w, checked ++ when (OnSkipped w) (CbOnSkipped reason))
  else (w, checked).

(** What [select] receives: the cancellation of the context or a tick. *)
Inductive signal :=
| CtxDone
| TickerC (p : Poll).

(** [Start] over the signals that arrive: the watcher and the events so
    far, and whether [Start] has returned (it returns [nil], and only
    on [CtxDone]).  The ticks are those of the ticker made from a positive
    [interval]. *)
Fixpoint Start (w : Watcher) (signals : list signal) : Watcher * list event * bool :=
  match signals with
  | [] => (w, [], false)
  | CtxDone :: _ => (w, [], true)
  | TickerC p :: rest =>
      let '(w', evs) := tick w p in
      let '(w'', evs', returned) := Start w' rest in
      (w'', evs ++ evs', returned)
  end.

End WithLibraries.


(** A publish attempt: [push] was entered, which first questions the
    registry. *)
Definition is_attempt (e : event) : bool :=
  match e with CallIsProtected _ _ => true | _ => false end.

End Watcher.

(** ** Instances used to evaluate the definitions *)

(** Stand-ins for the library functions that are taken as given, for
    running the definitions on concrete inputs.  The cipher appends a fixed
    16-byte tag and the digest is 32 zero bytes; [TrimSpace] and [ToUpper]
    treat the ASCII characters. *)
Module Sample.
Import GoStd.

Definition tag : list ascii := repeat "084"%char 16.

#[export] Instance crypto : Crypto := {|
  Sum256 := fun _ => repeat Base64.zero 32;
  gcmSeal := fun _ _ plaintext => plaintext ++ tag;
  gcmOpen := fun _ _ sealed =>
    let n := (length sealed - 16)%nat in
    if (16 <=? length sealed)%nat && bool_decide (skipn n sealed = tag)
    then Some (firstn n sealed) else None;
|}.

Definition is_space (c : ascii) : bool :=
  Ascii.eqb c " "%char || between 9 (byteZ c) 13.

Fixpoint trim_left (s : string) : string :=
  match s with
  | String c r => if is_space c then trim_left r else s
  | EmptyString => s
  end.

Definition upper (c : ascii) : ascii :=
  if between 97 (byteZ c) 122 then Zbyte (byteZ c - 32) else c.

#[export] Instance strings : GoStrings := {|
  TrimSpace := fun s => strrev (trim_left (strrev (trim_left s)));
  ToUpper := fun s => string_of_list_ascii (map upper (list_ascii_of_string s));
|}.

(** Durations of a whole number of hours, minutes or seconds in one unit
    ([2h], [5m], [60s]), printed the way [Duration.String] prints whole
    seconds ([1m1s], [1h0m0s]). *)
Definition unit_duration (s unit : string) (nanos : Z) : option Z :=
  if HasSuffix s unit then
    match TrimSuffix s unit with
    | String c r =>
        match digits_value 0 (String c r) with
        | Some n => Some (n * nanos)
        | None => None
        end
    | EmptyString => None
    end
  else None.

Definition seconds_string (d : Z) : string :=
  let secs := d / 1000000000 in
  let h := secs / 3600 in
  let m := secs / 60 mod 60 in
  let s := secs mod 60 in
  if 0 <? h then Itoa h +:+ "h" +:+ Itoa m +:+ "m" +:+ Itoa s +:+ "s"
  else if 0 <? m then Itoa m +:+ "m" +:+ Itoa s +:+ "s"
  else Itoa s +:+ "s".

#[export] Instance time : GoTime := {|
  ParseDuration := fun s =>
    match unit_duration s "h" 3600000000000 with
    | Some d => Some d
    | None =>
        match unit_duration s "m" 60000000000 with
        | Some d => Some d
        | None => unit_duration s "s" 1000000000
        end
    end;
  DurationString := seconds_string;
  DurationRound := fun d m => (d + m / 2) / m * m;
|}.

(** One decimal of the quotient of two non-negative integers, rounded to
    the nearest tenth, ties to even. *)
Definition tenths (n d : Z) : Z :=
  let q := 10 * n / d in
  let r := (10 * n) mod d in
  if (d <? 2 * r) || ((d =? 2 * r) && Z.odd q) then q + 1 else q.

#[export] Instance fmt : GoFmt := {|
  Sprintf_1f := fun n d => Itoa (tenths n d / 10) +:+ "." +:+ Itoa (tenths n d mod 10);
|}.

Definition machine : Cipher.Machine :=
  {| Cipher.hostname := "host"; Cipher.homeDir := "/home/u" |}.

Definition nonce : list ascii := repeat "N"%char 12.

End Sample.

(** ** Semantic versions (package [automation]: [Version], [ParseVersion],
    [String], the three bumps, [DetermineBumpType]) *)

Module Semver.
Import GoStd.

(** [strings.TrimPrefix]. *)
Definition TrimPrefix (s prefix : string) : string :=
  if HasPrefix s prefix then drop_string (String.length prefix) s else s.

(** [strings.Cut] for a one-byte separator: the text before and after its
    first occurrence. *)
Fixpoint Cut (sep : ascii) (s : string) : option (string * string) :=
  match s with
  | EmptyString => None
  | String c r =>
      if Ascii.eqb c sep then Some (EmptyString, r)
      else match Cut sep r with
           | Some (before, after) => Some (String c before, after)
           | None => None
           end
  end.

(** [strings.SplitN s sep 2]. *)
Definition SplitN2 (sep : ascii) (s : string) : list string :=
  match Cut sep s with
  | Some (before, after) => [before; after]
  | None => [s]
  end.

Record Version := {
  Major : Z;
  Minor : Z;
  Patch : Z;
  Prerelease : string;
  Prefix : string;
}.

(** [ParseVersion]; its error is always [nil], and the errors of [Atoi]
    are discarded. *)
Definition ParseVersion (s : string) : Version :=
  let '(prefix, s) :=
    if HasPrefix s "v" then ("v", TrimPrefix s "v") else ("", s) in
  let '(prerelease, s) :=
    match SplitN2 "-" s with
    | [base; pre] => (pre, base)
    | _ => ("", s)
    end in
  let versionParts := Split "." s in
  let part (i : nat) : Z :=
    match versionParts !! i with
    | Some p => (Atoi p).1
    | None => 0
    end in
  {| Major := part 0%nat; Minor := part 1%nat; Patch := part 2%nat;
     Prerelease := prerelease; Prefix := prefix |}.

(** The method [String]. *)
Definition Version_String (v : Version) : string :=
  let base :=
    Prefix v +:+ Itoa (Major v) +:+ "." +:+ Itoa (Minor v) +:+ "." +:+ Itoa (Patch v) in
  if negb (String.eqb (Prerelease v) "") then base +:+ "-" +:+ Prerelease v else base.

(** The increments wrap around like [int]. *)
Definition BumpMajor (v : Version) : Version :=
  {| Major := int64 (Major v + 1); Minor := 0; Patch := 0;
     Prerelease := ""; Prefix := Prefix v |}.

Definition BumpMinor (v : Version) : Version :=
  {| Major := Major v; Minor := int64 (Minor v + 1); Patch := 0;
     Prerelease := ""; Prefix := Prefix v |}.

Definition BumpPatch (v : Version) : Version :=
  {| Major := Major v; Minor := Minor v; Patch := int64 (Patch v + 1);
     Prerelease := ""; Prefix := Prefix v |}.

(** [ChangelogCommit]; the field [Type] is [Type_] here. *)
Record ChangelogCommit := {
  Hash : string;
  ShortHash : string;
  Author : string;
  Date : Z;
  Message : string;
  Type_ : string;
  Scope : string;
  Breaking : bool;
}.

Definition DetermineBumpType (commits : list ChangelogCommit) : string :=
  if existsb Breaking commits then "major"
  else if existsb (fun c => String.eqb (Type_ c) "feat" || String.eqb (Type_ c) "feature")
                  commits
  then "minor"
  else "patch".

End Semver.

(** ** The comparison of release versions (package [core]:
    [isNewerVersion]) *)

(** [Sscanf_d s] is the integer that [fmt.Sscanf s "%d" &x] leaves in a
    variable [x] that was zero. *)
Class GoScan := {
  Sscanf_d : string -> Z;
}.

Module Update.
Import GoStd Semver.

Section WithScan.
Context {Sc : GoScan}.

(** The loop over the common indices: the verdict of the first pair of
    parts whose numbers differ. *)
Fixpoint first_difference (latestParts currentParts : list string) : option bool :=
  match latestParts, currentParts with
  | lp :: latestParts', cp :: currentParts' =>
      let l := Sscanf_d lp in
      let c := Sscanf_d cp in
      if c <? l then Some true
      else if l <? c then Some false
      else first_difference latestParts' currentParts'
  | _, _ => None
  end.

Definition isNewerVersion (latest current : string) : bool :=
  if String.eqb current "dev" || String.eqb current "" then true
  else
    let latestParts := Split "." (TrimPrefix latest "v") in
    let currentParts := Split "." (TrimPrefix current "v") in
    match first_difference latestParts currentParts with
    | Some verdict => verdict
    | None => (length currentParts <? length latestParts)%nat
    end.

End WithScan.
End Update.

(** ** The logger (package [core]: [Logger] and its methods) *)

(** [FormatTime t] is [t.Format "2006-01-02 15:04:05"]. *)
Class GoClock := {
  FormatTime : Z -> string;
}.

Module Logging.

(** [LogLevel] is an integer type with four named values. *)
Definition LogLevel := Z.
Definition LogDebug : LogLevel := 0.
Definition LogInfo : LogLevel := 1.
Definition LogWarn : LogLevel := 2.
Definition LogError : LogLevel := 3.

Record LogEntry := {
  Time : Z;
  Level : LogLevel;
  Message : string;
}.

(** The method [String] of a level. *)
Definition LevelString (l : LogLevel) : string :=
  if l =? LogDebug then "DEBUG"
  else if l =? LogInfo then "INFO"
  else if l =? LogWarn then "WARN"
  else if l =? LogError then "ERROR"
  else "UNKNOWN".

(** The log file: the lines appended to it, and whether it was closed (a
    write to a closed file fails, and the logger ignores the failure). *)
Record File := {
  Closed : bool;
  Lines : list string;
}.

Record Logger := {
  file : option File;
  entries : list LogEntry;
  maxSize : Z;
  minLevel : LogLevel;
}.

(** [NewLogger]; [opened] is the error of [os.OpenFile], if any.  [None]
    stands for the run-time panic of [make] with a negative capacity. *)
Definition NewLogger (opened : option error) (maxEntries : Z) : option (result Logger) :=
  match opened with
  | Some err => Some (Err err)
  | None =>
      if maxEntries <? 0 then None
      else Some (Ok {| file := Some {| Closed := false; Lines := [] |};
                       entries := []; maxSize := maxEntries; minLevel := LogInfo |})
  end.

Definition SetLevel (level : LogLevel) (l : Logger) : Logger :=
  {| file := file l; entries := entries l; maxSize := maxSize l; minLevel := level |}.

Section WithClock.
Context {K : GoClock}.

Definition WriteString (line : string) (f : File) : File :=
  if Closed f then f else {| Closed := false; Lines := Lines f ++ [line] |}.

(** [log]; [now] is the clock.  [None] stands for the run-time panic of
    slicing an empty buffer from index 1. *)
Definition log (now : Z) (level : LogLevel) (message : string) (l : Logger)
    : option Logger :=
  if level <? minLevel l then Some l
  else
    let entry := {| Time := now; Level := level; Message := message |} in
    let kept :=
      if maxSize l <=? Z.of_nat (length (entries l)) then
        match entries l with
        | [] => None
        | _ :: newer => Some newer
        end
      else Some (entries l) in
    match kept with
    | None => None
    | Some kept =>
        let line :=
          "[" +:+ FormatTime (Time entry) +:+ "] " +:+ LevelString (Level entry)
          +:+ ": " +:+ Message entry +:+ String "010"%char "" in
        Some {| file := WriteString line <$> file l;
                entries := kept ++ [entry];
                maxSize := maxSize l; minLevel := minLevel l |}
    end.

Definition Debug (now : Z) (message : string) (l : Logger) := log now LogDebug message l.
Definition Info (now : Z) (message : string) (l : Logger) := log now LogInfo message l.
Definition Warn (now : Z) (message : string) (l : Logger) := log now LogWarn message l.
Definition Error_ (now : Z) (message : string) (l : Logger) := log now LogError message l.

(** Several calls of [log] in a row, stopping at a panic. *)
Fixpoint logs (calls : list (Z * LogLevel * string)) (l : Logger) : option Logger :=
  match calls with
  | [] => Some l
  | (now, level, message) :: rest =>
      match log now level message l with
      | Some l' => logs rest l'
      | None => None
      end
  end.

End WithClock.

Definition Entries (l : Logger) : list LogEntry := entries l.

Definition EntriesSince (since : Z) (l : Logger) : list LogEntry :=
  List.filter (fun entry => since <? Time entry) (entries l).

Definition EntriesByLevel (level : LogLevel) (l : Logger) : list LogEntry :=
  List.filter (fun entry => Level entry =? level) (entries l).

Definition Clear (l : Logger) : Logger :=
  {| file := file l; entries := []; maxSize := maxSize l; minLevel := minLevel l |}.

(** [Close]; [closing] is what closing the file returns. *)
Definition Close (closing : option error) (l : Logger) : option error * Logger :=
  match file l with
  | Some f =>
      (closing,
       {| file := Some {| Closed := true; Lines := Lines f |};
          entries := entries l; maxSize := maxSize l; minLevel := minLevel l |})
  | None => (None, l)
  end.

Definition Count (l : Logger) : Z := Z.of_nat (length (entries l)).

(** [Last]; [None] stands for the run-time panic of [make] with a negative
    length. *)
Definition Last (n : Z) (l : Logger) : option (list LogEntry) :=
  if Count l <=? n then Some (entries l)
  else if n <? 0 then None
  else Some (skipn (Z.to_nat (Count l - n)) (entries l)).

End Logging.

(** ** More instances used to evaluate the definitions *)

Module SampleMore.
Import GoStd.

(** The digits a string starts with. *)
Fixpoint leading_digits (s : string) : string :=
  match s with
  | String c r => if is_digit c then String c (leading_digits r) else EmptyString
  | EmptyString => EmptyString
  end.

(** Scanning an unsigned decimal number at the start of the text; nothing
    is stored when there is none. *)
#[export] Instance scan : GoScan := {|
  Sscanf_d := fun s => default 0 (digits_value 0 (leading_digits s));
|}.

(** Times printed as the number of seconds. *)
#[export] Instance clock : GoClock := {|
  FormatTime := fun t => Itoa t;
|}.

End SampleMore.

(** * Properties *)

(** ** Base64: decoding undoes encoding *)

Module Base64Facts.
Import Base64.

Lemma dec6_enc6 (s : sextet) : dec6 (enc6 s) = Some s.
Proof. destruct s as [[[[[[] []] []] []] []] []]; vm_compute; reflexivity. Qed.

Lemma enc6_not_pad (s : sextet) : Ascii.eqb (enc6 s) padChar = false.
Proof. destruct s as [[[[[[] []] []] []] []] []]; vm_compute; reflexivity. Qed.

Lemma enc6_not_newline (s : sextet) : is_newline (enc6 s) = false.
Proof. destruct s as [[[[[[] []] []] []] []] []]; vm_compute; reflexivity. Qed.

Lemma pad_not_newline : is_newline padChar = false.
Proof. reflexivity. Qed.

(** One step of [decode], as an equation. *)
Lemma decode_quantum (c0 c1 c2 c3 : ascii) (rest : list ascii) :
  decode (c0 :: c1 :: c2 :: c3 :: rest) =
  match dec6 c0, dec6 c1 with
  | Some s0, Some s1 =>
      if Ascii.eqb c2 padChar then
        if Ascii.eqb c3 padChar then
          match rest with
          | [] => Some [(bytes3 s0 s1 s0 s0).1.1]
          | _ => None
          end
        else None
      else
        match dec6 c2 with
        | Some s2 =>
            if Ascii.eqb c3 padChar then
              match rest with
              | [] => let '(x, y, _) := bytes3 s0 s1 s2 s0 in Some [x; y]
              | _ => None
              end
            else
              match dec6 c3 with
              | Some s3 =>
                  let '(x, y, z) := bytes3 s0 s1 s2 s3 in
                  (fun tl => x :: y :: z :: tl) <$> decode rest
              | None => None
              end
        | None => None
        end
  | _, _ => None
  end.
Proof. reflexivity. Qed.

Ltac quantum :=
  rewrite decode_quantum;
  rewrite ?dec6_enc6, ?enc6_not_pad, ?Ascii.eqb_refl; cbn [bytes3 fst snd].

Lemma decode_full (x y z : ascii) (rest : list ascii) :
  decode (quantum3 x y z ++ rest) = (fun tl => x :: y :: z :: tl) <$> decode rest.
Proof.
  destruct x, y, z. unfold quantum3. cbn [app]. quantum. reflexivity.
Qed.

Lemma decode_one (x : ascii) :
  decode (firstn 2 (quantum3 x zero zero) ++ [padChar; padChar]) = Some [x].
Proof.
  destruct x. unfold quantum3, zero. cbn [app firstn]. quantum. reflexivity.
Qed.

Lemma decode_two (x y : ascii) :
  decode (firstn 3 (quantum3 x y zero) ++ [padChar]) = Some [x; y].
Proof.
  destruct x, y. unfold quantum3, zero. cbn [app firstn]. quantum. reflexivity.
Qed.

(** Induction over a list three elements at a time. *)
Lemma triples_ind {A} (P : list A -> Prop) :
  P [] -> (forall x, P [x]) -> (forall x y, P [x; y]) ->
  (forall x y z rest, P rest -> P (x :: y :: z :: rest)) ->
  forall l, P l.
Proof.
  intros H0 H1 H2 H3.
  assert (H : forall l, P l /\ (forall x, P (x :: l)) /\ (forall x y, P (x :: y :: l))).
  { induction l as [|a l (IH0 & IH1 & IH2)]; repeat split; auto. }
  intros l. apply H.
Qed.

Lemma decode_encode (src : list ascii) : decode (encode src) = Some src.
Proof.
  induction src as [|x|x y|x y z rest IH] using triples_ind.
  - reflexivity.
  - apply decode_one.
  - apply decode_two.
  - change (encode (x :: y :: z :: rest)) with (quantum3 x y z ++ encode rest).
    rewrite decode_full, IH. reflexivity.
Qed.

Lemma quantum3_no_newline (x y z : ascii) :
  Forall (fun c => is_newline c = false) (quantum3 x y z).
Proof.
  destruct x, y, z. unfold quantum3.
  repeat constructor; apply enc6_not_newline.
Qed.

Lemma encode_no_newline (src : list ascii) :
  Forall (fun c => is_newline c = false) (encode src).
Proof.
  induction src as [|x|x y|x y z rest IH] using triples_ind.
  - constructor.
  - cbn [encode]. apply Forall_app. split.
    + apply Forall_take, quantum3_no_newline.
    + repeat constructor.
  - cbn [encode]. apply Forall_app. split.
    + apply Forall_take, quantum3_no_newline.
    + repeat constructor.
  - change (encode (x :: y :: z :: rest)) with (quantum3 x y z ++ encode rest).
    apply Forall_app. split; [apply quantum3_no_newline | exact IH].
Qed.

Lemma filter_all {A} (f : A -> bool) (l : list A) :
  Forall (fun c => f c = true) l -> List.filter f l = l.
Proof.
  induction 1 as [|c l Hc _ IH]; cbn; [reflexivity|]. rewrite Hc, IH. reflexivity.
Qed.

Lemma DecodeString_EncodeToString (src : list ascii) :
  DecodeString (EncodeToString src) = Ok src.
Proof.
  unfold DecodeString, EncodeToString.
  rewrite list_ascii_of_string_of_list_ascii.
  rewrite filter_all.
  - rewrite decode_encode. reflexivity.
  - eapply Forall_impl; [apply encode_no_newline|].
    intros c Hc. cbn beta. rewrite Hc. reflexivity.
Qed.

End Base64Facts.

(** ** The secret cipher *)

Module CipherFacts.
Import GoStd Cipher.

Section WithCrypto.
Context {C : Crypto} {CS : CryptoSpec C}.

Lemma NewCipher_encryptionKey (m : Machine) :
  NewCipher (encryptionKey m) = Ok (encryptionKey m)
  /\ length (encryptionKey m) = 32%nat.
Proof.
  unfold NewCipher, encryptionKey. rewrite Sum256_length. split; reflexivity.
Qed.

Lemma ReadFull_length (r : list ascii) (n : nat) (bs : list ascii) :
  ReadFull r n = Some bs -> length bs = n.
Proof.
  unfold ReadFull. destruct (Nat.leb_spec n (length r)) as [Hle|]; [|discriminate].
  intros [= <-]. rewrite length_take. lia.
Qed.

Lemma ReadFull_enough (r : list ascii) (n : nat) :
  (n <= length r)%nat -> ReadFull r n = Some (firstn n r).
Proof.
  intros Hle. unfold ReadFull.
  destruct (Nat.leb_spec n (length r)); [reflexivity | lia].
Qed.

(** Whatever token [encrypt] returns, [decrypt] on the same machine
    turns it back into the plaintext. *)
Lemma decrypt_encrypt (m : Machine) (rand : list ascii) (s token : string) :
  encrypt m rand s = Ok token -> decrypt m token = Ok s.
Proof.
  unfold encrypt, decrypt.
  destruct (NewCipher_encryptionKey m) as [-> Hkey]. cbn [NewGCM].
  destruct (ReadFull rand NonceSize) as [nonce|] eqn:Hnonce; [|discriminate].
  apply ReadFull_length in Hnonce.
  intros [= <-].
  rewrite Base64Facts.DecodeString_EncodeToString.
  rewrite length_app, Hnonce.
  destruct (Nat.ltb_spec (NonceSize + length (gcmSeal (encryptionKey m) nonce
                                               (list_ascii_of_string s)))
                         NonceSize) as [Hlt|_]; [lia|].
  rewrite take_app_length' by (symmetry; exact Hnonce).
  rewrite drop_app_length' by (symmetry; exact Hnonce).
  rewrite list_ascii_of_string_of_list_ascii.
  rewrite gcmOpen_Seal by assumption.
  rewrite string_of_list_ascii_of_string. reflexivity.
Qed.

Lemma encrypt_enough_random (m : Machine) (rand : list ascii) (s : string) :
  (12 <= length rand)%nat -> exists token, encrypt m rand s = Ok token.
Proof.
  intros Hrand. unfold encrypt.
  destruct (NewCipher_encryptionKey m) as [-> _]. cbn [NewGCM].
  rewrite ReadFull_enough by exact Hrand. eauto.
Qed.

(** C9: for every string [s], encrypting [s] with a random source that
    can deliver the 12 bytes of a nonce yields a token, and decrypting
    that token under the key derived from the same machine returns [s]
    exactly. *)
Theorem C9_decrypt_encrypt_roundtrip (m : Machine) (rand : list ascii) (s : string) :
  (12 <= length rand)%nat ->
  exists token, encrypt m rand s = Ok token /\ decrypt m token = Ok s.
Proof.
  intros Hrand.
  destruct (encrypt_enough_random m rand s Hrand) as [token Henc]. exists token. split; [exact Henc|].
  eapply decrypt_encrypt, Henc.
Qed.

End WithCrypto.

(** The stand-in cipher keeps the promises asked of a cipher. *)
Lemma sample_crypto_spec : CryptoSpec Sample.crypto.
Proof.
  split.
  - intros m. reflexivity.
  - intros key nonce plaintext _ _. cbn [gcmOpen gcmSeal Sample.crypto].
    rewrite length_app. change (length Sample.tag) with 16%nat.
    replace (length plaintext + 16 - 16)%nat with (length plaintext) by lia.
    destruct (Nat.leb_spec 16 (length plaintext + 16)) as [_|Hlt]; [|lia].
    rewrite drop_app_length, take_app_length.
    rewrite bool_decide_eq_true_2 by reflexivity. reflexivity.
Qed.

Lemma C9_roundtrip_witness :
  exists token,
    encrypt (C := Sample.crypto) Sample.machine Sample.nonce "ghp_0123456789abcdef"
    = Ok token
    /\ decrypt (C := Sample.crypto) Sample.machine token = Ok "ghp_0123456789abcdef".
Proof.
  apply (@C9_decrypt_encrypt_roundtrip Sample.crypto sample_crypto_spec).
  vm_compute. lia.
Defined.

End CipherFacts.

(** ** The protected-repository manager *)

Module RegistryFacts.
Import GoStd Registry.

Lemma existsb_range_keys (f : string -> bool) (pm : ProtectedRepoManager) :
  existsb f (range_keys pm) = true
  <-> exists k, is_Some (repos pm !! k) /\ f k = true.
Proof.
  unfold range_keys. rewrite existsb_exists. split.
  - intros (k & Hin & Hf). exists k. split; [|exact Hf].
    apply list_elem_of_In, list_elem_of_fmap in Hin as ([k' v] & -> & Hkv).
    apply elem_of_map_to_list in Hkv. cbn. eauto.
  - intros (k & [v Hv] & Hf). exists k. split; [|exact Hf].
    apply list_elem_of_In, list_elem_of_fmap. exists (k, v). split; [reflexivity|].
    apply elem_of_map_to_list, Hv.
Qed.

(** A path is reported as protected exactly when some guard equals its
    canonical form or passes [isSubPath] for it. *)
Lemma IsProtected_true (wd : option string) (pm : ProtectedRepoManager) (p : string) :
  IsProtected wd pm p = true
  <-> exists a k, Abs wd p = Some a /\ is_Some (repos pm !! k)
                  /\ (a = k \/ isSubPath a k = true).
Proof.
  unfold IsProtected. destruct (Abs wd p) as [a|].
  - rewrite existsb_range_keys. split.
    + intros (k & Hk & Hf). exists a, k. repeat split; [exact Hk|].
      apply orb_true_iff in Hf as [Heq|Hsub]; [left; apply String.eqb_eq, Heq | right; exact Hsub].
    + intros (a' & k & [= <-] & Hk & Hf). exists k. split; [exact Hk|].
      apply orb_true_iff. destruct Hf as [->|Hsub]; [left; apply String.eqb_refl | right; exact Hsub].
  - split; [discriminate|]. intros (a & k & [=] & _).
Qed.

Lemma IsProtected_false (wd : option string) (pm : ProtectedRepoManager) (p a : string) :
  Abs wd p = Some a ->
  IsProtected wd pm p = false
  <-> forall k, is_Some (repos pm !! k) -> a <> k /\ isSubPath a k = false.
Proof.
  intros Habs. rewrite <- not_true_iff_false, IsProtected_true. split.
  - intros Hno k Hk. split.
    + intros ->. apply Hno. exists k, k. auto.
    + apply not_true_iff_false. intros Hsub. apply Hno. exists a, k. auto.
  - intros Hall (a' & k & Habs' & Hk & Hf).
    rewrite Habs in Habs'. injection Habs' as <-.
    destruct (Hall k Hk) as [Hne Hsub]. destruct Hf as [->|Hsub']; congruence.
Qed.

(** A guard at the canonical path itself always covers it. *)
Lemma IsProtected_exact (wd : option string) (pm : ProtectedRepoManager) (p a : string) :
  Abs wd p = Some a -> is_Some (repos pm !! a) -> IsProtected wd pm p = true.
Proof. intros Habs Ha. apply IsProtected_true. exists a, a. auto. Qed.

Lemma string_of_rune_nonempty (r : Z) : string_of_rune r <> "".
Proof.
  unfold string_of_rune.
  repeat match goal with |- context [if ?b then _ else _] => destruct b end;
    discriminate.
Qed.

(** The stored hash of a password is never the empty string, which is how
    a guard without password is told apart. *)
Lemma hashPassword_nonempty (password : string) : hashPassword password <> "".
Proof. apply string_of_rune_nonempty. Qed.

Lemma verifyPassword_refl (password : string) :
  verifyPassword password (hashPassword password) = true.
Proof. apply String.eqb_refl. Qed.

(** [Unprotect] looks a guard up by the exact canonical path only: without
    one it returns [nil] and changes nothing. *)
Lemma Unprotect_no_exact_guard (wd : option string) (saved : option error)
    (pm : ProtectedRepoManager) (p password a : string) :
  Abs wd p = Some a -> repos pm !! a = None ->
  Unprotect wd saved pm p password = (None, pm).
Proof. intros Habs Hnone. unfold Unprotect. rewrite Habs, Hnone. reflexivity. Qed.

(** The first half of C3: on a path that no guard covers and that
    canonicalises, [Unprotect] succeeds without changing the registry. *)
Lemma Unprotect_uncovered (wd : option string) (saved : option error)
    (pm : ProtectedRepoManager) (p password a : string) :
  Abs wd p = Some a -> IsProtected wd pm p = false ->
  Unprotect wd saved pm p password = (None, pm).
Proof.
  intros Habs Hfree. apply (Unprotect_no_exact_guard _ _ _ _ _ a Habs).
  destruct (repos pm !! a) eqn:Ha; [|reflexivity].
  rewrite (IsProtected_exact wd pm p a) in Hfree; [discriminate | exact Habs | eauto].
Qed.

(** C3 on the code: when the path is a descendant of a protected root
    (no guard at its own canonical path, a guard above it), [Unprotect]
    returns [nil] whatever the password, the registry is unchanged, and the
    path is still protected; no guard is removed. *)
Theorem C3_unprotect_descendant_removes_nothing (wd : option string)
    (saved : option error) (pm : ProtectedRepoManager) (p password a root : string) :
  Abs wd p = Some a ->
  repos pm !! a = None ->
  is_Some (repos pm !! root) ->
  isSubPath a root = true ->
  Unprotect wd saved pm p password = (None, pm)
  /\ is_Some (repos (Unprotect wd saved pm p password).2 !! root)
  /\ IsProtected wd (Unprotect wd saved pm p password).2 p = true.
Proof.
  intros Habs Hnone Hroot Hsub.
  rewrite (Unprotect_no_exact_guard _ _ _ _ _ a Habs Hnone). cbn [snd].
  repeat split; [exact Hroot|].
  apply IsProtected_true. exists a, root. auto.
Qed.

(** The registry holding one guard, without password, at [/a/b]. *)
Definition guarded_ab : ProtectedRepoManager :=
  (Protect None 0 None (NewProtectedRepoManager "protected.json") "/a/b" "").2.

Lemma C3_descendant_witness :
  Unprotect None None guarded_ab "/a/b/c" "" = (None, guarded_ab)
  /\ is_Some (repos (Unprotect None None guarded_ab "/a/b/c" "").2 !! "/a/b")
  /\ IsProtected None (Unprotect None None guarded_ab "/a/b/c" "").2 "/a/b/c" = true.
Proof.
  apply (C3_unprotect_descendant_removes_nothing None None guarded_ab
           "/a/b/c" "" "/a/b/c" "/a/b").
  - reflexivity.
  - vm_compute. reflexivity.
  - vm_compute. eexists. reflexivity.
  - vm_compute. reflexivity.
Defined.

(** On that input the handler in front of [Unprotect] tells the user that
    the protection was removed, while the registry is what it was. *)
Lemma handleUnprotect_descendant_reports_removal :
  handleUnprotect (Ok "/a/b/c") None "" guarded_ab
  = (None, guarded_ab, [UISuccess "Protection removed"]).
Proof. vm_compute. reflexivity. Qed.

(** [isSubPath] excludes the path itself and the directory right above
    [parentPath], and accepts every other path that [filepath.Rel] can reach:
    the paths inside [parentPath], and also paths outside of it, whose
    relative path starts with [../]. *)
Lemma isSubPath_examples :
  isSubPath "/a/b/c" "/a/b" = true
  /\ isSubPath "/a/b" "/a/b" = false
  /\ isSubPath "/a" "/a/b" = false
  /\ Rel "/a/b" "/x" = Some "../../x"
  /\ isSubPath "/x" "/a/b" = true.
Proof. vm_compute. repeat split. Qed.

(** *** [Protect] *)

(** The guard [Protect] stores for a password. *)
Definition guard_for (a password : string) (now : Z) : ProtectedRepo :=
  {| Path := a;
     Password := if negb (String.eqb password "") then hashPassword password else "";
     ProtectedAt := now; LastAccessed := None |}.

Lemma Protect_spec (wd : option string) (now : Z) (saved : option error)
    (pm : ProtectedRepoManager) (p password a : string) :
  Abs wd p = Some a ->
  Protect wd now saved pm p password
  = (saved, with_repos pm (<[a := guard_for a password now]> (repos pm))).
Proof. intros Habs. unfold Protect. rewrite Habs. reflexivity. Qed.

(** C4 as stated fails: [/repo] is protected with the password [ab];
    protecting it again with [zz] returns [nil] and the stored hash is now
    that of [zz]. *)
Lemma C4_protect_covered_counterexample :
  let pm1 := (Protect None 1 None (NewProtectedRepoManager "protected.json")
                      "/repo" "ab").2 in
  let again := Protect None 2 None pm1 "/repo" "zz" in
  IsProtected None pm1 "/repo" = true
  /\ again.1 = None
  /\ Password <$> repos pm1 !! "/repo" = Some (hashPassword "ab")
  /\ Password <$> repos again.2 !! "/repo" = Some (hashPassword "zz")
  /\ hashPassword "ab" <> hashPassword "zz".
Proof. vm_compute. repeat split; discriminate. Qed.

(** C4 amended: [Protect] never refuses a path because it is covered.
    For a path that canonicalises it returns what writing the document
    returns and stores, at the canonical path, a guard with the hash of
    the new password (none for the empty password), replacing a guard
    that was there and leaving the other guards alone.  The refusal is
    made in front of it: on a covered working directory [handleProtect]
    warns, returns [nil] and leaves the registry untouched. *)
Theorem C4_protect_overwrites_and_handler_refuses (wd : option string) (now : Z)
    (saved : option error) (pm : ProtectedRepoManager) (p password a : string) :
  Abs wd p = Some a ->
  let after := Protect wd now saved pm p password in
  after.1 = saved
  /\ repos after.2 !! a = Some (guard_for a password now)
  /\ (forall k, k <> a -> repos after.2 !! k = repos pm !! k)
  /\ (forall cwd args prompt,
        IsProtected (Some cwd) pm cwd = true ->
        handleProtect (Ok cwd) now saved args prompt pm
        = (None, pm, [UIWarning "This repository is already protected"])).
Proof.
  intros Habs after. subst after. rewrite (Protect_spec _ _ _ _ _ _ a Habs).
  cbn [fst snd with_repos repos]. repeat split.
  - apply lookup_insert_eq.
  - intros k Hk. apply lookup_insert_ne. congruence.
  - intros cwd args prompt Hcov. unfold handleProtect. rewrite Hcov. reflexivity.
Qed.

Lemma C4_overwrite_witness :
  let pm1 := (Protect None 1 None (NewProtectedRepoManager "protected.json")
                      "/repo" "ab").2 in
  let after := Protect None 2 None pm1 "/repo" "zz" in
  after.1 = None
  /\ repos after.2 !! "/repo" = Some (guard_for "/repo" "zz" 2)
  /\ handleProtect (Ok "/repo") 2 None ["--password"] "zz" pm1
     = (None, pm1, [UIWarning "This repository is already protected"]).
Proof.
  intros pm1 after.
  destruct (C4_protect_overwrites_and_handler_refuses
              None 2 None pm1 "/repo" "zz" "/repo" eq_refl) as (H1 & H2 & _ & H4).
  split; [exact H1 | split; [exact H2 |]].
  apply H4. vm_compute. reflexivity.
Defined.

(** *** The password gate *)

Lemma Unprotect_wrong_password (wd : option string) (saved : option error)
    (pm : ProtectedRepoManager) (p password a : string) (repo : ProtectedRepo) :
  Abs wd p = Some a -> repos pm !! a = Some repo ->
  Password repo <> "" -> verifyPassword password (Password repo) = false ->
  Unprotect wd saved pm p password = (Some (NewError ErrGitProtected), pm).
Proof.
  intros Habs Hrepo Hpw Hbad. unfold Unprotect. rewrite Habs, Hrepo, Hbad.
  apply String.eqb_neq in Hpw. rewrite Hpw. reflexivity.
Qed.

Lemma Unprotect_verified (wd : option string) (saved : option error)
    (pm : ProtectedRepoManager) (p password a : string) (repo : ProtectedRepo) :
  Abs wd p = Some a -> repos pm !! a = Some repo ->
  verifyPassword password (Password repo) = true ->
  Unprotect wd saved pm p password = (saved, with_repos pm (delete a (repos pm))).
Proof.
  intros Habs Hrepo Hgood. unfold Unprotect. rewrite Habs, Hrepo, Hgood.
  rewrite andb_false_r. reflexivity.
Qed.

(** C6 as stated fails: [/a/b] is protected with the password [k9], then
    [/a] is protected; unprotecting [/a/b] with [k9] succeeds and removes
    its guard, yet [/a/b] is still protected, by the guard of [/a]. *)
Lemma C6_still_protected_counterexample :
  let pm1 := (Protect None 1 None (NewProtectedRepoManager "protected.json")
                      "/a/b" "k9").2 in
  let pm2 := (Protect None 2 None pm1 "/a" "").2 in
  let after := Unprotect None None pm2 "/a/b" "k9" in
  after.1 = None
  /\ repos after.2 !! "/a/b" = None
  /\ IsProtected None after.2 "/a/b" = true.
Proof. vm_compute. repeat split. Qed.

(** C6 amended: let [p] canonicalise to a path holding a guard with a
    non-empty password hash.  With a password that does not verify,
    [Unprotect] fails with [GIT_PROTECTED], the registry is unchanged and
    [p] is still protected.  With a password that verifies, [Unprotect]
    returns what writing the document returns and the guard of [p] is
    gone; afterwards [p] is reported unprotected exactly when no other
    guard covers it. *)
Theorem C6_password_gate (wd : option string) (saved : option error)
    (pm : ProtectedRepoManager) (p a : string) (repo : ProtectedRepo) :
  Abs wd p = Some a ->
  repos pm !! a = Some repo ->
  Password repo <> "" ->
  (forall wrong,
      verifyPassword wrong (Password repo) = false ->
      Unprotect wd saved pm p wrong = (Some (NewError ErrGitProtected), pm)
      /\ IsProtected wd pm p = true)
  /\ (forall correct,
        verifyPassword correct (Password repo) = true ->
        let after := Unprotect wd saved pm p correct in
        after.1 = saved
        /\ repos after.2 = delete a (repos pm)
        /\ (IsProtected wd after.2 p = false
            <-> forall k, k <> a -> is_Some (repos pm !! k) -> isSubPath a k = false)).
Proof.
  intros Habs Hrepo Hpw. split.
  - intros wrong Hbad. split.
    + eapply Unprotect_wrong_password; eassumption.
    + eapply IsProtected_exact; [exact Habs | eauto].
  - intros correct Hgood after. subst after.
    rewrite (Unprotect_verified _ _ _ _ _ a repo Habs Hrepo Hgood).
    cbn [fst snd with_repos repos]. repeat split.
    + rewrite (IsProtected_false _ _ _ a Habs). cbn [with_repos repos].
      intros Hfree k Hne Hk. apply Hfree. rewrite lookup_delete_ne by congruence. exact Hk.
    + intros Hothers. apply (IsProtected_false _ _ _ a Habs). cbn [with_repos repos].
      intros k Hk. destruct (decide (k = a)) as [->|Hne].
      * rewrite lookup_delete_eq in Hk. destruct Hk as [? [=]].
      * rewrite lookup_delete_ne in Hk by congruence. split; [congruence | auto].
Qed.

(** The registry holding one guard, with the password [k9], at [/a/b]. *)
Definition locked_ab : ProtectedRepoManager :=
  (Protect None 1 None (NewProtectedRepoManager "protected.json") "/a/b" "k9").2.

Lemma locked_ab_repos :
  repos locked_ab = <["/a/b" := guard_for "/a/b" "k9" 1]> ∅.
Proof. reflexivity. Qed.

Lemma C6_password_gate_witness :
  (Unprotect None None locked_ab "/a/b" "x" = (Some (NewError ErrGitProtected), locked_ab)
   /\ IsProtected None locked_ab "/a/b" = true)
  /\ (Unprotect None None locked_ab "/a/b" "k9").1 = None
  /\ IsProtected None (Unprotect None None locked_ab "/a/b" "k9").2 "/a/b" = false.
Proof.
  destruct (C6_password_gate None None locked_ab "/a/b" "/a/b"
              (guard_for "/a/b" "k9" 1)) as [Hwrong Hright].
  - reflexivity.
  - vm_compute. reflexivity.
  - vm_compute. discriminate.
  - split; [apply Hwrong; vm_compute; reflexivity|].
    destruct (Hright "k9") as (Hres & _ & Hfree); [vm_compute; reflexivity|].
    split; [exact Hres|]. apply Hfree.
    intros k Hne Hk. exfalso.
    rewrite locked_ab_repos, lookup_insert_ne, lookup_empty in Hk by congruence.
    destruct Hk as [? [=]].
Defined.

(** *** The password hash *)

(** C10: [secret] and [wrong] are distinct passwords with the same hash:
    the accumulator of each leaves the range of code points and becomes
    U+FFFD.  Hence [verifyPassword] accepts [wrong] against the hash of
    [secret], and on any path protected with [secret], [VerifyAccess]
    grants access to [wrong] and [Unprotect] with [wrong] removes the
    guard.  The pair [ab], [bC] collides without leaving the range. *)
Theorem C10_hashPassword_collisions :
  exists p1 p2 : string,
    p1 <> p2
    /\ hashPassword p1 = hashPassword p2
    /\ hashPassword p1 = string_of_rune RuneError
    /\ verifyPassword p2 (hashPassword p1) = true
    /\ (hashPassword "ab" = hashPassword "bC"
        /\ hashPassword "ab" <> string_of_rune RuneError)
    /\ forall wd now saved pm path a,
        Abs wd path = Some a ->
        let pm1 := (Protect wd now saved pm path p1).2 in
        VerifyAccess wd pm1 path p2 = true
        /\ Unprotect wd saved pm1 path p2
           = (saved, with_repos pm1 (delete a (repos pm1)))
        /\ repos (Unprotect wd saved pm1 path p2).2 !! a = None.
Proof.
  exists "secret", "wrong".
  split; [discriminate|].
  split; [vm_compute; reflexivity|].
  split; [vm_compute; reflexivity|].
  split; [vm_compute; reflexivity|].
  split; [split; [vm_compute; reflexivity | vm_compute; discriminate]|].
  intros wd now saved pm path a Habs pm1. subst pm1.
  rewrite (Protect_spec _ _ _ _ _ _ a Habs). cbn [snd].
  set (g := guard_for a "secret" now).
  assert (Hg : repos (with_repos pm (<[a:=g]> (repos pm))) !! a = Some g)
    by apply lookup_insert_eq.
  assert (Hv : verifyPassword "wrong" (Password g) = true) by (vm_compute; reflexivity).
  split; [|split].
  - unfold VerifyAccess, GetProtection. rewrite Habs, Hg, Hv.
    destruct (String.eqb (Password g) ""); reflexivity.
  - eapply Unprotect_verified; eassumption.
  - rewrite (Unprotect_verified _ _ _ _ _ a g Habs Hg Hv).
    cbn [snd with_repos repos]. apply lookup_delete_eq.
Qed.

End RegistryFacts.

(** ** The account manager *)

Module VaultFacts.
Import GoStd Cipher Vault.

Lemma range_first_in (m : gmap string Account) (seed : nat) (n : string) :
  range_first m seed = Some n -> is_Some (m !! n).
Proof.
  unfold range_first. intros Hn.
  apply list_elem_of_lookup_2, list_elem_of_fmap in Hn as ([n' acc] & -> & Hin).
  apply elem_of_map_to_list in Hin. cbn. eauto.
Qed.

Lemma range_first_nonempty (m : gmap string Account) (seed : nat) :
  m <> ∅ -> is_Some (range_first m seed).
Proof.
  intros Hne. unfold range_first. apply lookup_lt_is_Some_2.
  apply Nat.mod_upper_bound. rewrite length_fmap.
  intros Hlen. apply Hne, map_to_list_empty_iff, nil_length_inv, Hlen.
Qed.

Lemma range_first_singleton (n : string) (acc : Account) (seed : nat) :
  range_first {[n := acc]} seed = Some n.
Proof.
  unfold range_first. rewrite map_to_list_singleton.
  change (length ([(n, acc)].*1)) with 1%nat.
  rewrite Nat.mod_1_r. reflexivity.
Qed.

Lemma Switch_lookup (am : AccountManager) (name n : string) :
  is_Some (accounts am !! name) ->
  accounts (Switch am name).2 !! n
  = set_IsDefault (String.eqb n name) <$> accounts am !! n.
Proof.
  intros [acc Hacc]. unfold Switch. rewrite Hacc. cbn [snd accounts].
  rewrite map_lookup_imap. destruct (accounts am !! n); reflexivity.
Qed.

(** What every sequence of calls maintains, from any manager that has
    it: an identity whose flag is set is the current one, and the current
    name is the name of an identity as soon as there is one. *)
Definition consistent (am : AccountManager) : Prop :=
  (forall n acc, accounts am !! n = Some acc -> IsDefault acc = true -> n = current am)
  /\ (accounts am <> ∅ -> is_Some (accounts am !! current am)).

Lemma consistent_new (d : string) : consistent (NewAccountManager d).
Proof.
  split.
  - intros n acc Hn. cbn in Hn. rewrite lookup_empty in Hn. discriminate.
  - intros Hne. exfalso. apply Hne. reflexivity.
Qed.

Lemma consistent_Remove (removed : option error) (seed : nat)
    (am : AccountManager) (name : string) :
  consistent am -> consistent (Remove removed seed am name).2.
Proof.
  intros [Hflag Hcur]. unfold Remove.
  destruct (accounts am !! name) as [acc0|] eqn:Hname; [|split; assumption].
  destruct removed; [split; assumption|]. cbn [snd]. split; cbn [accounts current].
  - intros n acc Hn Hdef.
    apply lookup_delete_Some in Hn as [Hne Hn].
    pose proof (Hflag n acc Hn Hdef) as ->.
    destruct (String.eqb_spec (current am) name) as [Heq|_]; [congruence | reflexivity].
  - intros Hne.
    destruct (String.eqb_spec (current am) name) as [Heq|Hneq].
    + destruct (range_first_nonempty _ seed Hne) as [n Hn]. rewrite Hn. cbn.
      eapply range_first_in, Hn.
    + rewrite lookup_delete_ne by congruence. apply Hcur.
      intros Hempty. rewrite Hempty, lookup_empty in Hname. discriminate.
Qed.

Lemma consistent_Switch (am : AccountManager) (name : string) :
  consistent am -> consistent (Switch am name).2.
Proof.
  intros Hc. destruct (accounts am !! name) as [acc0|] eqn:Hname.
  - split.
    + intros n acc. rewrite Switch_lookup by eauto.
      destruct (accounts am !! n) as [acc1|]; [|discriminate].
      intros [= <-]. cbn [set_IsDefault IsDefault].
      intros Heq%String.eqb_eq. unfold Switch. rewrite Hname. exact Heq.
    + intros _. rewrite Switch_lookup by eauto.
      replace (current (Switch am name).2) with name
        by (unfold Switch; rewrite Hname; reflexivity).
      rewrite Hname. cbn. eauto.
  - unfold Switch. rewrite Hname. exact Hc.
Qed.

Section WithLibraries.
Context {C : Crypto} {S : GoStrings}.

Lemma consistent_Add (m : Machine) (rand : list ascii) (now : Z)
    (saved : option error) (am : AccountManager) (name username email pat : string) :
  consistent am -> consistent (Add m rand now saved am name username email pat).2.
Proof.
  intros [Hflag Hcur]. unfold Add.
  destruct (accounts am !! name) eqn:Hname; [split; assumption|].
  destruct (encrypt m rand (TrimSpace pat)) as [token|]; [|split; assumption].
  destruct saved; [split; assumption|]. cbn [snd IsDefault].
  split; cbn [accounts current].
  - intros n acc Hn Hdef.
    apply lookup_insert_Some in Hn as [[<- <-]|[Hne Hn]].
    + cbn [IsDefault] in Hdef. rewrite Hdef. reflexivity.
    + case_bool_decide as Hsize.
      * apply map_size_empty_iff in Hsize. rewrite Hsize, lookup_empty in Hn.
        discriminate.
      * eapply Hflag; eassumption.
  - intros _. case_bool_decide as Hsize.
    + rewrite lookup_insert_eq. eauto.
    + rewrite lookup_insert_ne.
      * apply Hcur. intros Hempty. apply Hsize. rewrite Hempty. reflexivity.
      * intros Heq. destruct Hcur as [? Hc].
        -- intros Hempty. apply Hsize. rewrite Hempty. reflexivity.
        -- rewrite <- Heq, Hname in Hc. discriminate.
Qed.

(** After any sequence of [Add], [Remove] and [Switch] on a fresh
    manager, at most the current identity carries the flag, and the
    current name designates an identity whenever one is left. *)
Lemma run_consistent (m : Machine) (d : string) (calls : list call) :
  consistent (run m (NewAccountManager d) calls).
Proof.
  unfold run. generalize (consistent_new d).
  generalize (NewAccountManager d). induction calls as [|c calls IH]; intros am Ham.
  - exact Ham.
  - cbn [fold_left]. apply IH. destruct c; cbn [step].
    + apply consistent_Add, Ham.
    + apply consistent_Remove, Ham.
    + apply consistent_Switch, Ham.
Qed.

End WithLibraries.

Section RemoveActive.
Context {C : Crypto} {CS : CryptoSpec C} {S : GoStrings}.

Lemma Add_fresh (m : Machine) (rand : list ascii) (now : Z)
    (am : AccountManager) (name username email pat : string) :
  accounts am !! name = None -> (12 <= length rand)%nat ->
  exists token,
    Add m rand now None am name username email pat
    = (None,
       let first := bool_decide (size (accounts am) = 0%nat) in
       {| dir := dir am;
          accounts :=
            <[name := {| Name := name; Username := username; Email := email;
                         PAT := token; IsDefault := first;
                         CreatedAt := now; UpdatedAt := now |}]> (accounts am);
          current := if first then name else current am |}).
Proof.
  intros Hfresh Hrand. unfold Add. rewrite Hfresh.
  destruct (CipherFacts.encrypt_enough_random m rand (TrimSpace pat) Hrand)
    as [token ->].
  exists token. reflexivity.
Qed.

(** C1 on the code: add [a], add [b], remove [a], every call
    succeeding.  The vault is left with the single identity [b], which
    [Remove] made the current one, but the is-active flag of [b] is
    still [false]: no identity has the flag set. *)
Theorem C1_remove_active_leaves_no_flag (m : Machine) (d : string)
    (rand1 rand2 : list ascii) (now1 now2 : Z) (seed : nat)
    (a ua ea pa b ub eb pb : string) :
  a <> b -> (12 <= length rand1)%nat -> (12 <= length rand2)%nat ->
  let am := run m (NewAccountManager d)
                [CallAdd rand1 now1 None a ua ea pa;
                 CallAdd rand2 now2 None b ub eb pb;
                 CallRemove None seed a] in
  dom (accounts am) = {[b]}
  /\ current am = b
  /\ IsDefault <$> accounts am !! b = Some false
  /\ defaults am = [].
Proof.
  intros Hab Hr1 Hr2 am. subst am. unfold run. cbn [fold_left step].
  destruct (Add_fresh m rand1 now1 (NewAccountManager d) a ua ea pa
              (lookup_empty _) Hr1) as [t1 ->].
  cbn [snd NewAccountManager accounts current dir].
  rewrite map_size_empty, bool_decide_eq_true_2 by reflexivity.
  set (acc1 := {| Name := a; Username := ua; Email := ea; PAT := t1; IsDefault := true;
                  CreatedAt := now1; UpdatedAt := now1 |}).
  set (am1 := {| dir := d; accounts := <[a:=acc1]> ∅; current := a |}).
  destruct (Add_fresh m rand2 now2 am1 b ub eb pb) as [t2 ->]; [|exact Hr2|].
  { cbn. rewrite lookup_insert_ne by congruence. apply lookup_empty. }
  cbn [snd am1 accounts current dir].
  rewrite map_size_insert_None, bool_decide_eq_false_2 by (apply lookup_empty || lia).
  set (acc2 := {| Name := b; Username := ub; Email := eb; PAT := t2; IsDefault := false;
                  CreatedAt := now2; UpdatedAt := now2 |}).
  unfold Remove. cbn [accounts current dir].
  rewrite lookup_insert_ne, lookup_insert_eq by congruence. cbn [snd accounts current].
  rewrite String.eqb_refl.
  rewrite delete_insert_ne, delete_insert_eq, delete_empty by congruence.
  change (<[b:=acc2]> ∅) with ({[b := acc2]} : gmap string Account).
  rewrite range_first_singleton. cbn [default].
  repeat split.
  - apply dom_singleton_L.
  - rewrite lookup_singleton_eq. reflexivity.
  - unfold defaults. cbn [accounts].
    rewrite map_filter_singleton_False by (cbn; discriminate).
    rewrite map_to_list_empty. reflexivity.
Qed.

End RemoveActive.

Lemma C1_remove_active_witness :
  let am := run (C := Sample.crypto) (S := Sample.strings) Sample.machine
                (NewAccountManager "accounts")
                [CallAdd Sample.nonce 1 None "work" "alice" "alice@example.com" "ghp_a";
                 CallAdd Sample.nonce 2 None "home" "alice" "alice@example.org" "ghp_b";
                 CallRemove None 0 "work"] in
  dom (accounts am) = {["home"]}
  /\ current am = "home"
  /\ IsDefault <$> accounts am !! "home" = Some false
  /\ defaults am = [].
Proof.
  apply (C1_remove_active_leaves_no_flag (CS := CipherFacts.sample_crypto_spec)).
  - discriminate.
  - vm_compute. lia.
  - vm_compute. lia.
Defined.

End VaultFacts.

(** ** The threshold watcher *)

Module WatcherFacts.
Import GoStd Registry Watcher.

(** The number of publish attempts among some events. *)
Definition attempts (evs : list event) : nat := length (List.filter is_attempt evs).

Lemma attempts_app (evs evs' : list event) :
  attempts (evs ++ evs') = (attempts evs + attempts evs')%nat.
Proof. unfold attempts. rewrite List.filter_app, length_app. reflexivity. Qed.

Lemma attempts_when_callback (b : bool) (e : event) :
  is_attempt e = false -> attempts (when b e) = 0%nat.
Proof. intros He. destruct b; cbn; [unfold attempts; cbn; rewrite He|]; reflexivity. Qed.

Section WithLibraries.
Context {S : GoStrings} {T : GoTime} {F : GoFmt}.

(** *** [checkThreshold], one trigger kind at a time *)

Lemma checkThreshold_commits (w : Watcher) (p : Poll) :
  thresholdType w = ThresholdCommits ->
  checkThreshold w p =
  match PendingCommitCount p with
  | Err _ => (false, "", [])
  | Ok count =>
      let threshold := (Atoi (thresholdValue w)).1 in
      let checked :=
        when (OnCheck w) (CbOnCheck ThresholdCommits (Itoa count) (thresholdValue w)) in
      if threshold <=? count then
        (true,
         Itoa count +:+ " commits pending (threshold: " +:+ Itoa threshold +:+ ")",
         checked)
      else if 0 <? count then
        (false, Itoa count +:+ "/" +:+ Itoa threshold +:+ " commits", checked)
      else (false, "", checked)
  end.
Proof. intros Hty. unfold checkThreshold. rewrite Hty. reflexivity. Qed.

Lemma checkThreshold_time (w : Watcher) (p : Poll) :
  thresholdType w = ThresholdTime ->
  checkThreshold w p =
  match ParseDuration (thresholdValue w) with
  | None => (false, "", [])
  | Some duration =>
      let elapsed := Now p - lastPushTime w in
      let checked :=
        when (OnCheck w)
          (CbOnCheck ThresholdTime (DurationString (DurationRound elapsed Second))
                     (DurationString duration)) in
      if duration <=? elapsed then
        if 0 <? value_or 0 (PendingCommitCount p) then
          (true, "time threshold reached (" +:+ thresholdValue w +:+ ")", checked)
        else (false, "", checked)
      else (false, "", checked)
  end.
Proof. intros Hty. unfold checkThreshold. rewrite Hty. reflexivity. Qed.

Lemma checkThreshold_size (w : Watcher) (p : Poll) :
  thresholdType w = ThresholdSize ->
  checkThreshold w p =
  match UnpushedChangesSize p with
  | Err _ => (false, "", [])
  | Ok size =>
      let threshold := ParseSize (thresholdValue w) in
      let checked :=
        when (OnCheck w)
          (CbOnCheck ThresholdSize (FormatSize size) (FormatSize threshold)) in
      if threshold <=? size then
        (true, "size threshold reached (" +:+ FormatSize size +:+ ")", checked)
      else (false, "", checked)
  end.
Proof. intros Hty. unfold checkThreshold. rewrite Hty. reflexivity. Qed.

(** The callback of [checkThreshold] is never a publish attempt. *)
Lemma checkThreshold_no_attempt (w : Watcher) (p : Poll) :
  attempts (checkThreshold w p).2 = 0%nat.
Proof.
  unfold checkThreshold.
  repeat match goal with
         | |- context [if ?b then _ else _] => destruct b
         | |- context [match ?r with Ok _ => _ | Err _ => _ end] => destruct r
         | |- context [match ?o with Some _ => _ | None => _ end] => destruct o
         end; cbn [snd fst]; try reflexivity;
    apply attempts_when_callback; reflexivity.
Qed.

(** *** One poll *)

(** A poll whose threshold is not met asks nothing of the registry and
    leaves the watcher as it was. *)
Lemma tick_not_triggered (w : Watcher) (p : Poll) :
  (checkThreshold w p).1.1 = false ->
  (tick w p).1 = w /\ attempts (tick w p).2 = 0%nat.
Proof.
  intros Hno. unfold tick. pose proof (checkThreshold_no_attempt w p) as Hchk.
  destruct (checkThreshold w p) as [[shouldPush reason] checked].
  cbn [fst snd] in Hno, Hchk. subst shouldPush.
  destruct (negb (String.eqb reason "")); cbn [fst snd]; split; try reflexivity.
  - rewrite attempts_app, Hchk, attempts_when_callback; reflexivity.
  - exact Hchk.
Qed.



(** A poll moves [lastPushTime] only by executing a push that succeeds. *)
Lemma tick_lastPushTime (w : Watcher) (p : Poll) :
  lastPushTime (tick w p).1 = lastPushTime w
  \/ (Push p = None
      /\ In (CallPush (remote w) (branch w)) (tick w p).2
      /\ lastPushTime (tick w p).1 = NowPushed p).
Proof.
  unfold tick. destruct (checkThreshold w p) as [[[|] reason] checked].
  - unfold push. destruct (IsProtected _ _ _); [left; reflexivity|].
    destruct (Push p) as [err|]; [left; reflexivity|].
    right. cbn [fst snd]. split; [reflexivity|]. split; [|reflexivity].
    apply in_or_app. right. cbn. auto.
  - destruct (negb (String.eqb reason "")); left; reflexivity.
Qed.

(** *** Runs *)




(** Over a run, [lastPushTime] is the time the watcher started with, or the
    time taken right after a push of the run that succeeded. *)
Lemma Start_lastPushTime (w : Watcher) (signals : list signal) :
  lastPushTime (Start w signals).1.1 = lastPushTime w
  \/ exists p, In (TickerC p) signals /\ Push p = None
               /\ lastPushTime (Start w signals).1.1 = NowPushed p.
Proof.
  revert w. induction signals as [|[|p] rest IH]; intros w; [left; reflexivity ..|].
  cbn [Start]. pose proof (tick_lastPushTime w p) as Htick.
  destruct (tick w p) as [w1 evs1]. cbn [fst snd] in Htick.
  specialize (IH w1). destruct (Start w1 rest) as [[w2 evs2] ret]. cbn [fst snd] in *.
  destruct IH as [IH|(q & Hq & Hpush & IH)].
  - rewrite IH. destruct Htick as [Htick|(Hpush & _ & Htick)]; [left; exact Htick|].
    right. exists p. cbn. auto.
  - right. exists q. cbn. auto.
Qed.

(** A new watcher counts the elapsed time from its construction. *)
Lemma NewWatcher_lastPushTime (repo : Repo) (now : Z) (cfg : WatcherConfig) (w : Watcher) :
  NewWatcher repo now cfg = Ok w -> lastPushTime w = now.
Proof.
  unfold NewWatcher. destruct (negb (IsRepo repo)); [discriminate|].
  destruct (if String.eqb (cfgBranch cfg) "" then CurrentBranch repo else Ok (cfgBranch cfg));
    [|discriminate].
  intros [= <-]. reflexivity.
Qed.

(** *** The commit-count trigger *)

Lemma commits_trigger_iff (w : Watcher) (p : Poll) (count : Z) :
  thresholdType w = ThresholdCommits ->
  PendingCommitCount p = Ok count ->
  (checkThreshold w p).1.1 = true <-> (Atoi (thresholdValue w)).1 <= count.
Proof.
  intros Hty Hcount. rewrite (checkThreshold_commits w p Hty), Hcount. cbn zeta.
  destruct (Z.leb_spec (Atoi (thresholdValue w)).1 count) as [Hle|Hgt].
  - cbn [fst]. split; [intros _; exact Hle | reflexivity].
  - destruct (0 <? count); cbn [fst]; split; (discriminate || lia).
Qed.



(** *** The elapsed-time trigger *)

(** The poll publishes: its threshold is met, the registry answers that the
    path it is asked about is not protected, and [git push] returns no
    error. *)
Definition published (w : Watcher) (p : Poll) : bool :=
  (checkThreshold w p).1.1
  && negb (IsProtected (Getwd p) (ProtectedRepos p)
                       (value_or "" (RepoName (GetRemoteURL p))))
  && match Push p with None => true | Some _ => false end.

(** The watcher a poll leaves: the push time is taken anew when the poll
    publishes, and the watcher is untouched otherwise. *)
Lemma tick_published (w : Watcher) (p : Poll) :
  (tick w p).1 = (if published w p then set_lastPushTime (NowPushed p) w else w)
  /\ (published w p = true -> In (CallPush (remote w) (branch w)) (tick w p).2).
Proof.
  unfold published, tick. destruct (checkThreshold w p) as [[[|] reason] checked];
    cbn [fst snd andb].
  - unfold push. destruct (IsProtected _ _ _); cbn [negb andb fst snd].
    + split; [reflexivity | discriminate].
    + destruct (Push p) as [err|]; cbn [fst snd]; (split; [reflexivity|]);
        [discriminate|]. intros _. apply in_or_app. right. cbn. auto.
  - destruct (negb (String.eqb reason "")); split; (reflexivity || discriminate).
Qed.

(** C7: under the elapsed-time kind a poll triggers a publish exactly
    when the configured duration parses, the time since [lastPushTime] is
    at least that duration, and the pending count was read and is
    positive.  With no pending commit nothing is attempted, whatever the
    elapsed time.  [lastPushTime] is the time of the last successful
    publish: it is set when the watcher is built, a poll that publishes
    sets it to the time taken right after its push, every other poll
    leaves the watcher as it was, and the next poll measures the elapsed
    time from there. *)
Theorem C7_elapsed_time_trigger (w : Watcher) (p : Poll) :
  thresholdType w = ThresholdTime ->
  ((checkThreshold w p).1.1 = true
   <-> exists duration count,
         ParseDuration (thresholdValue w) = Some duration
         /\ duration <= Now p - lastPushTime w
         /\ PendingCommitCount p = Ok count /\ 0 < count)
  /\ (value_or 0 (PendingCommitCount p) <= 0 ->
      (checkThreshold w p).1.1 = false /\ attempts (tick w p).2 = 0%nat)
  /\ (lastPushTime (tick w p).1 = lastPushTime w
      \/ (Push p = None
          /\ In (CallPush (remote w) (branch w)) (tick w p).2
          /\ lastPushTime (tick w p).1 = NowPushed p))
  /\ (published w p = true ->
      lastPushTime (tick w p).1 = NowPushed p
      /\ In (CallPush (remote w) (branch w)) (tick w p).2)
  /\ (published w p = false -> (tick w p).1 = w)
  /\ (forall p',
        (checkThreshold (tick w p).1 p').1.1 = true
        <-> exists duration count,
              ParseDuration (thresholdValue w) = Some duration
              /\ duration <= Now p' - (if published w p then NowPushed p
                                       else lastPushTime w)
              /\ PendingCommitCount p' = Ok count /\ 0 < count).
Proof.
  revert p.
  assert (Hgen : forall (w : Watcher) (p : Poll),
             thresholdType w = ThresholdTime ->
             (checkThreshold w p).1.1 = true
             <-> exists duration count,
                   ParseDuration (thresholdValue w) = Some duration
                   /\ duration <= Now p - lastPushTime w
                   /\ PendingCommitCount p = Ok count /\ 0 < count).
  { clear w. intros w p Hty.
    rewrite (checkThreshold_time w p Hty).
    destruct (ParseDuration (thresholdValue w)) as [duration|].
    - cbn zeta.
      destruct (Z.leb_spec duration (Now p - lastPushTime w)) as [Hle|Hgt].
      + destruct (PendingCommitCount p) as [count|err]; cbn [value_or].
        * destruct (Z.ltb_spec 0 count) as [Hpos|Hnone]; cbn [fst]; split.
          -- intros _. exists duration, count. auto.
          -- reflexivity.
          -- discriminate.
          -- intros (d & c & [= <-] & _ & [= <-] & Hpos). lia.
        * cbn [fst]. split; [discriminate|].
          intros (d & c & _ & _ & [=] & _).
      + cbn [fst]. split; [discriminate|].
        intros (d & c & [= <-] & Hle & _). lia.
    - cbn [fst]. split; [discriminate|]. intros (d & c & [=] & _). }
  intros p Hty. pose proof (Hgen w p Hty) as Hiff.
  destruct (tick_published w p) as [Hw Hpush].
  split; [exact Hiff|]. split; [|split; [apply tick_lastPushTime|split; [|split]]].
  - intros Hzero.
    assert (Hno : (checkThreshold w p).1.1 = false).
    { apply not_true_iff_false. rewrite Hiff.
      intros (d & c & _ & _ & Hc & Hpos). rewrite Hc in Hzero. cbn in Hzero. lia. }
    split; [exact Hno|]. apply tick_not_triggered, Hno.
  - intros Hyes. rewrite Hw, Hyes. split; [reflexivity | exact (Hpush Hyes)].
  - intros Hno. rewrite Hw, Hno. reflexivity.
  - intros p'. rewrite Hw. destruct (published w p).
    + apply (Hgen (set_lastPushTime (NowPushed p) w) p'). exact Hty.
    + apply (Hgen w p'). exact Hty.
Qed.

(** *** Protection *)

(** When the registry answers that the path it is asked about is
    protected, [push] returns an error without calling the publish
    executor, and the poll reports that error to [OnError] if one is
    set. *)
Lemma push_protected (w : Watcher) (p : Poll) :
  let repoName := value_or "" (RepoName (GetRemoteURL p)) in
  IsProtected (Getwd p) (ProtectedRepos p) repoName = true ->
  exists err,
    push w p = (Some err, w, [CallIsProtected repoName true])
    /\ forall checked reason,
        checkThreshold w p = (true, reason, checked) ->
        tick w p = (w, checked ++ [CallIsProtected repoName true]
                               ++ when (OnError w) (CbOnError err)).
Proof.
  intros repoName Hprot. eexists. split.
  - unfold push. fold repoName. rewrite Hprot. reflexivity.
  - intros checked reason Hchk. unfold tick, push. fold repoName.
    rewrite Hchk, Hprot. reflexivity.
Qed.

(** *** The threshold value *)

(** The value [NewWatcher] fills in for an empty threshold value. *)
Definition default_value (type : ThresholdType) : string :=
  if String.eqb type ThresholdCommits then "3"
  else if String.eqb type ThresholdTime then "5m"
  else if String.eqb type ThresholdSize then "1MB"
  else "".

(** C5 amended: no threshold value is ever rejected.  [NewWatcher]
    fails only when the directory is not a repository or the branch is
    neither given nor readable; otherwise it succeeds for every trigger
    kind and value and keeps the value as it was given (the default of
    the kind when none was given), unparsed.  During a poll no parse
    error is reported either: under elapsed-time a value that does not
    parse makes the poll do nothing, under commit-count the threshold is
    the number [Atoi] returns whether or not it also returns an error,
    and under change-size it is the number [ParseSize] returns. *)
Theorem C5_threshold_value_never_rejected (repo : Repo) (now : Z) (cfg : WatcherConfig) :
  IsRepo repo = true ->
  (cfgBranch cfg <> "" \/ exists b, CurrentBranch repo = Ok b) ->
  (exists w,
      NewWatcher repo now cfg = Ok w
      /\ thresholdType w = (if String.eqb (cfgThresholdType cfg) "" then ThresholdCommits
                            else cfgThresholdType cfg)
      /\ thresholdValue w = (if String.eqb (cfgThresholdValue cfg) ""
                             then default_value (thresholdType w)
                             else cfgThresholdValue cfg))
  /\ (forall w p,
        (thresholdType w = ThresholdTime ->
         ParseDuration (thresholdValue w) = None -> tick w p = (w, []))
        /\ (thresholdType w = ThresholdCommits ->
            forall count, PendingCommitCount p = Ok count ->
              ((checkThreshold w p).1.1 = true <-> (Atoi (thresholdValue w)).1 <= count))
        /\ (thresholdType w = ThresholdSize ->
            forall size, UnpushedChangesSize p = Ok size ->
              ((checkThreshold w p).1.1 = true <-> ParseSize (thresholdValue w) <= size))).
Proof.
  intros Hrepo Hbranch. split.
  - unfold NewWatcher. rewrite Hrepo. cbn [negb].
    assert (Hb : exists b,
               (if String.eqb (cfgBranch cfg) "" then CurrentBranch repo
                else Ok (cfgBranch cfg)) = Ok b).
    { destruct (String.eqb_spec (cfgBranch cfg) "") as [Heq|_]; [|eauto].
      destruct Hbranch as [Hne|Hcur]; [congruence | exact Hcur]. }
    destruct Hb as [b ->]. eexists. split; [reflexivity|].
    cbn [thresholdType thresholdValue]. split; reflexivity.
  - intros w p. split; [|split].
    + intros Hty Hbad. unfold tick.
      rewrite (checkThreshold_time w p Hty), Hbad. reflexivity.
    + intros Hty count Hcount. apply commits_trigger_iff; assumption.
    + intros Hty size Hsize. rewrite (checkThreshold_size w p Hty), Hsize. cbn zeta.
      destruct (Z.leb_spec (ParseSize (thresholdValue w)) size) as [Hle|Hgt];
        cbn [fst]; split; (discriminate || lia || reflexivity || (intros _; exact Hle)).
Qed.

End WithLibraries.

(** *** Evaluation on concrete polls *)

Import Sample.

(** A watcher on [origin]/[main] with every callback set, built at time 0. *)
Definition watcher_of (type : ThresholdType) (value : string) : Watcher :=
  {| thresholdType := type; thresholdValue := value; interval := 10 * Second;
     remote := "origin"; branch := "main"; lastPushTime := 0;
     OnPush := true; OnError := true; OnCheck := true; OnSkipped := true |}.

(** A poll in the working directory [/home/u/proj]: [count] pending
    commits, [url] as the URL of [origin], a push that succeeds. *)
Definition poll_of (count : Z) (url : string) (pm : ProtectedRepoManager) (now : Z) : Poll :=
  {| PendingCommitCount := Ok count; PendingCommitCountAgain := Ok count;
     UnpushedChangesSize := Ok 0; GetRemoteURL := Ok url; Push := None;
     Getwd := Some "/home/u/proj"; ProtectedRepos := pm;
     Now := now; NowPushed := now + 1 |}.

Definition no_guards : ProtectedRepoManager := NewProtectedRepoManager "protected.json".

(** The registry holding one guard, without password, at the working
    directory [/home/u/proj]. *)
Definition guarded_proj : ProtectedRepoManager :=
  (Protect None 0 None no_guards "/home/u/proj" "").2.

Definition github : string := "https://github.com/u/proj.git".


(** The run of that witness, event by event: two idle polls, then the
    push. *)
Lemma commit_count_run :
  (Start (watcher_of ThresholdCommits "3")
         [TickerC (poll_of 1 github no_guards 10);
          TickerC (poll_of 2 github no_guards 20);
          TickerC (poll_of 3 github no_guards 30);
          CtxDone]).1.2
  = [CbOnCheck ThresholdCommits "1" "3"; CbOnSkipped "1/3 commits";
     CbOnCheck ThresholdCommits "2" "3"; CbOnSkipped "2/3 commits";
     CbOnCheck ThresholdCommits "3" "3";
     CallIsProtected "proj" false; CallPush "origin" "main";
     CbOnPush "origin" "main" 3].
Proof. vm_compute. reflexivity. Qed.

Lemma C7_elapsed_time_witness :
  let w := watcher_of ThresholdTime "60s" in
  let p := poll_of 2 github no_guards 61000000000 in
  ((checkThreshold w p).1.1 = true
   <-> exists duration count,
         ParseDuration (thresholdValue w) = Some duration
         /\ duration <= Now p - lastPushTime w
         /\ PendingCommitCount p = Ok count /\ 0 < count)
  /\ (value_or 0 (PendingCommitCount p) <= 0 ->
      (checkThreshold w p).1.1 = false /\ attempts (tick w p).2 = 0%nat)
  /\ (lastPushTime (tick w p).1 = lastPushTime w
      \/ (Push p = None
          /\ In (CallPush (remote w) (branch w)) (tick w p).2
          /\ lastPushTime (tick w p).1 = NowPushed p))
  /\ (published w p = true ->
      lastPushTime (tick w p).1 = NowPushed p
      /\ In (CallPush (remote w) (branch w)) (tick w p).2)
  /\ (published w p = false -> (tick w p).1 = w)
  /\ (forall p',
        (checkThreshold (tick w p).1 p').1.1 = true
        <-> exists duration count,
              ParseDuration (thresholdValue w) = Some duration
              /\ duration <= Now p' - (if published w p then NowPushed p
                                       else lastPushTime w)
              /\ PendingCommitCount p' = Ok count /\ 0 < count).
Proof.
  intros w p. apply (C7_elapsed_time_trigger w p). reflexivity.
Defined.

(** In that poll the push succeeds, and the watcher counts from the time
    taken right after it: a poll 59 seconds later does not trigger, one 60
    seconds later does. *)
Lemma elapsed_time_restarts :
  let w := watcher_of ThresholdTime "60s" in
  let p := poll_of 2 github no_guards 61000000000 in
  published w p = true
  /\ lastPushTime (tick w p).1 = 61000000001
  /\ (checkThreshold (tick w p).1 (poll_of 2 github no_guards 120000000001)).1.1 = false
  /\ (checkThreshold (tick w p).1 (poll_of 2 github no_guards 121000000001)).1.1 = true.
Proof. vm_compute. repeat split. Qed.

(** Two polls under the elapsed-time kind, long after the last push: with
    two pending commits the push happens, with none nothing is attempted. *)
Lemma elapsed_time_polls :
  (tick (watcher_of ThresholdTime "60s") (poll_of 2 github no_guards 61000000000)).2
  = [CbOnCheck ThresholdTime "1m1s" "1m0s";
     CallIsProtected "proj" false; CallPush "origin" "main";
     CbOnPush "origin" "main" 2]
  /\ (tick (watcher_of ThresholdTime "60s") (poll_of 0 github no_guards 999000000000)).2
     = [CbOnCheck ThresholdTime "16m39s" "1m0s"].
Proof. vm_compute. split; reflexivity. Qed.

(** A configuration whose commit-count threshold is not a number. *)
Definition cfg_three : WatcherConfig :=
  {| cfgThresholdType := ThresholdCommits; cfgThresholdValue := "three";
     cfgInterval := 0; cfgRemote := ""; cfgBranch := "" |}.

Definition repo_main : Repo := {| IsRepo := true; CurrentBranch := Ok "main" |}.

(** C5 as stated fails: the commit-count value [three] does not parse,
    yet [NewWatcher] returns a watcher holding it, and the first poll, with
    no pending commit at all, pushes: the value was used as 0. *)
Lemma C5_bad_threshold_counterexample :
  (Atoi "three").2 = Some ErrSyntax
  /\ exists w,
      NewWatcher repo_main 0 cfg_three = Ok w
      /\ thresholdValue w = "three"
      /\ (tick w (poll_of 0 github no_guards 10)).2
         = [CallIsProtected "proj" false; CallPush "origin" "main"].
Proof.
  split; [reflexivity|]. eexists. split; [reflexivity|].
  split; [reflexivity|]. vm_compute. reflexivity.
Qed.

Lemma C5_never_rejected_witness :
  exists w,
    NewWatcher repo_main 0 cfg_three = Ok w
    /\ thresholdType w = ThresholdCommits
    /\ thresholdValue w = "three".
Proof.
  destruct (C5_threshold_value_never_rejected repo_main 0 cfg_three) as [Hnew _].
  - reflexivity.
  - right. exists "main". reflexivity.
  - exact Hnew.
Defined.

(** C2 on the code: the working directory [/home/u/proj] is protected and
    the registry says so, the URL of [origin] is the relative path [..],
    and three commits are pending under a commit-count threshold of 3.
    [push] asks the registry about the repository name [..], which
    resolves to [/home/u]; the answer is "not protected", the publish
    executor is called, and the poll ends in [OnPush], not [OnError]. *)
Theorem C2_watcher_pushes_from_protected_directory :
  let w := watcher_of ThresholdCommits "3" in
  let p := poll_of 3 ".." guarded_proj 30 in
  IsProtected (Getwd p) (ProtectedRepos p) "/home/u/proj" = true
  /\ IsProtected (Getwd p) (ProtectedRepos p) "." = true
  /\ RepoName (GetRemoteURL p) = Ok ".."
  /\ Abs (Getwd p) ".." = Some "/home/u"
  /\ tick w p
     = (set_lastPushTime 31 w,
        [CbOnCheck ThresholdCommits "3" "3";
         CallIsProtected ".." false; CallPush "origin" "main";
         CbOnPush "origin" "main" 3]).
Proof. vm_compute. repeat split. Qed.

(** With the usual kind of URL the name resolves to a directory below the
    working directory, the guard covers it, and the push is refused. *)
Lemma watcher_blocked_with_usual_url :
  tick (watcher_of ThresholdCommits "3") (poll_of 3 github guarded_proj 30)
  = (watcher_of ThresholdCommits "3",
     [CbOnCheck ThresholdCommits "3" "3";
      CallIsProtected "proj" true;
      CbOnError (Errorf "repository 'proj' is protected - skipping auto-push")]).
Proof. vm_compute. reflexivity. Qed.

End WatcherFacts.

(** ** Strings of digits *)

Module TextFacts.
Import GoStd Semver.

Lemma append_cons (x : ascii) (a b : string) : String x a +:+ b = String x (a +:+ b).
Proof. reflexivity. Qed.

Lemma append_nil_l (b : string) : "" +:+ b = b.
Proof. reflexivity. Qed.

Ltac by_append_induction a :=
  induction a as [|? a IH]; rewrite ?append_cons, ?append_nil_l; cbn;
  rewrite ?append_cons, ?append_nil_l; [try reflexivity | try (rewrite IH; reflexivity)].

Lemma append_assoc (a b c : string) : (a +:+ b) +:+ c = a +:+ (b +:+ c).
Proof. by_append_induction a. Qed.

Lemma append_nil_r (a : string) : a +:+ "" = a.
Proof. by_append_induction a. Qed.

Lemma length_append (a b : string) :
  String.length (a +:+ b) = (String.length a + String.length b)%nat.
Proof. by_append_induction a. Qed.

Lemma substring_all (s : string) : String.substring 0 (String.length s) s = s.
Proof. induction s as [|x s IH]; simpl; [reflexivity|]. rewrite IH. reflexivity. Qed.

Lemma substring_prefix (a b : string) :
  String.substring 0 (String.length a) (a +:+ b) = a.
Proof. by_append_induction a. destruct b; reflexivity. Qed.

Lemma drop_string_append (a b : string) : drop_string (String.length a) (a +:+ b) = b.
Proof.
  unfold drop_string. rewrite length_append.
  replace (String.length a + String.length b - String.length a)%nat
    with (String.length b) by lia.
  by_append_induction a; [apply substring_all | try exact IH ..].
Qed.

Lemma HasPrefix_append (a b : string) : HasPrefix (a +:+ b) a = true.
Proof.
  induction a as [|x a IH]; rewrite ?append_cons, ?append_nil_l; cbn.
  - destruct b; reflexivity.
  - rewrite Ascii.eqb_refl. exact IH.
Qed.

Lemma TrimPrefix_append (a b : string) : TrimPrefix (a +:+ b) a = b.
Proof. unfold TrimPrefix. rewrite HasPrefix_append. apply drop_string_append. Qed.

(** [lacks c s]: the byte [c] does not occur in [s]. *)
Fixpoint lacks (c : ascii) (s : string) : bool :=
  match s with
  | EmptyString => true
  | String x r => negb (Ascii.eqb x c) && lacks c r
  end.

Lemma lacks_append (c : ascii) (a b : string) :
  lacks c (a +:+ b) = lacks c a && lacks c b.
Proof.
  by_append_induction a. rewrite IH, andb_assoc. reflexivity.
Qed.

Lemma Split_lacks (c : ascii) (d : string) : lacks c d = true -> Split c d = [d].
Proof.
  induction d as [|x d IH]; cbn; [reflexivity|].
  intros [Hx Hd]%andb_true_iff. apply negb_true_iff in Hx. rewrite Hx, (IH Hd).
  reflexivity.
Qed.

Lemma Split_first (c : ascii) (d rest : string) :
  lacks c d = true -> Split c (d +:+ String c rest) = d :: Split c rest.
Proof.
  induction d as [|x d IH]; rewrite ?append_cons, ?append_nil_l; cbn.
  - intros _. rewrite Ascii.eqb_refl. reflexivity.
  - intros [Hx Hd]%andb_true_iff. apply negb_true_iff in Hx. rewrite Hx, (IH Hd).
    reflexivity.
Qed.

Lemma Cut_lacks (c : ascii) (d : string) : lacks c d = true -> Cut c d = None.
Proof.
  induction d as [|x d IH]; cbn; [reflexivity|].
  intros [Hx Hd]%andb_true_iff. apply negb_true_iff in Hx. rewrite Hx, (IH Hd).
  reflexivity.
Qed.

Lemma Cut_first (c : ascii) (d rest : string) :
  lacks c d = true -> Cut c (d +:+ String c rest) = Some (d, rest).
Proof.
  induction d as [|x d IH]; rewrite ?append_cons, ?append_nil_l; cbn.
  - intros _. rewrite Ascii.eqb_refl. reflexivity.
  - intros [Hx Hd]%andb_true_iff. apply negb_true_iff in Hx. rewrite Hx, (IH Hd).
    reflexivity.
Qed.

Fixpoint all_digits (s : string) : bool :=
  match s with
  | EmptyString => true
  | String x r => is_digit x && all_digits r
  end.

Lemma all_digits_append (a b : string) :
  all_digits (a +:+ b) = all_digits a && all_digits b.
Proof.
  by_append_induction a. rewrite IH, andb_assoc. reflexivity.
Qed.

Lemma all_digits_lacks (c : ascii) (s : string) :
  is_digit c = false -> all_digits s = true -> lacks c s = true.
Proof.
  intros Hc. induction s as [|x s IH]; cbn; [reflexivity|].
  intros [Hx Hs]%andb_true_iff. rewrite (IH Hs), andb_true_r.
  apply negb_true_iff. destruct (Ascii.eqb_spec x c) as [->|]; congruence.
Qed.

(** *** The decimal digits [Itoa] prints *)

Lemma pretty_N_char_digit (r : N) :
  (r < 10)%N ->
  is_digit (pretty_N_char r) = true /\ byteZ (pretty_N_char r) - 48 = Z.of_N r.
Proof.
  intros Hr.
  assert (r = 0 \/ r = 1 \/ r = 2 \/ r = 3 \/ r = 4 \/ r = 5 \/ r = 6 \/ r = 7
          \/ r = 8 \/ r = 9)%N as H by lia.
  repeat destruct H as [->|H]; try subst r; split; reflexivity.
Qed.

Lemma pretty_N_go_digits (x : N) (s : string) :
  exists d, pretty_N_go x s = d +:+ s /\ all_digits d = true
            /\ ((0 < x)%N -> d <> "").
Proof.
  revert s. induction (N.lt_wf_0 x) as [x _ IH]. intros s.
  destruct (N.eq_dec x 0%N) as [->|Hx].
  - exists "". rewrite pretty_N_go_0. repeat split. lia.
  - rewrite pretty_N_go_step by lia.
    destruct (IH (x `div` 10)%N) with (s := String (pretty_N_char (x `mod` 10)) s)
      as (d & -> & Hd & _); [apply N.div_lt; lia|].
    exists (d +:+ String (pretty_N_char (x `mod` 10)) "").
    rewrite append_assoc, append_cons, append_nil_l. split; [reflexivity|]. split.
    + rewrite all_digits_append, Hd. cbn.
      destruct (pretty_N_char_digit (x `mod` 10)) as [-> _]; [|reflexivity].
      apply N.mod_lt. lia.
    + intros _. destruct d; discriminate.
Qed.

Lemma digits_value_pretty_N_go (x : N) :
  exists p, forall acc s,
    digits_value acc (pretty_N_go x s) = digits_value (acc * p + Z.of_N x) s.
Proof.
  induction (N.lt_wf_0 x) as [x _ IH].
  destruct (N.eq_dec x 0%N) as [->|Hx].
  - exists 1. intros acc s. rewrite pretty_N_go_0. f_equal. lia.
  - destruct (IH (x `div` 10)%N) as [p Hp]; [apply N.div_lt; lia|].
    exists (p * 10). intros acc s.
    rewrite pretty_N_go_step, Hp by lia. cbn [digits_value].
    destruct (pretty_N_char_digit (x `mod` 10)) as [-> ->]; [apply N.mod_lt; lia|].
    f_equal. rewrite (N.div_mod x 10) at 3 by lia. lia.
Qed.

(** A non-negative number is printed as a non-empty string of digits. *)
Lemma Itoa_digits (n : Z) :
  0 <= n -> all_digits (Itoa n) = true /\ Itoa n <> "".
Proof.
  intros Hn. unfold Itoa, pretty, pretty_Z.
  destruct n as [|q|q]; [split; [reflexivity | discriminate] | | lia].
  unfold pretty, pretty_positive, pretty, pretty_N.
  destruct (decide (N.pos q = 0%N)) as [|_]; [discriminate|].
  destruct (pretty_N_go_digits (N.pos q) "") as (d & -> & Hd & Hne).
  rewrite append_nil_r. split; [exact Hd | apply Hne; lia].
Qed.

Lemma digits_value_Itoa (n : Z) : 0 <= n -> digits_value 0 (Itoa n) = Some n.
Proof.
  intros Hn. unfold Itoa, pretty, pretty_Z.
  destruct n as [|q|q]; [reflexivity | | lia].
  unfold pretty, pretty_positive, pretty, pretty_N.
  destruct (decide (N.pos q = 0%N)) as [|_]; [discriminate|].
  destruct (digits_value_pretty_N_go (N.pos q)) as [p Hp]. rewrite Hp. reflexivity.
Qed.

(** [ParseInt] on a string that starts with a digit takes no sign. *)
Lemma ParseInt_digit_first (x : ascii) (r : string) :
  is_digit x = true ->
  ParseInt (String x r) =
  match digits_value 0 (String x r) with
  | None => (0, Some ErrSyntax)
  | Some n =>
      if n <? MinInt64 then (MinInt64, Some ErrRange)
      else if MaxInt64 <? n then (MaxInt64, Some ErrRange)
      else (n, None)
  end.
Proof.
  intros Hx.
  destruct x as [[] [] [] [] [] [] [] []];
    try (vm_compute in Hx; discriminate Hx); reflexivity.
Qed.

(** Reading back what [Itoa] printed. *)
Lemma Atoi_Itoa (n : Z) : 0 <= n <= MaxInt64 -> Atoi (Itoa n) = (n, None).
Proof.
  intros [Hn Hmax]. destruct (Itoa_digits n Hn) as [Hd Hne].
  pose proof (digits_value_Itoa n Hn) as Hv.
  unfold Atoi. destruct (Itoa n) as [|x r]; [congruence|].
  cbn [all_digits] in Hd. apply andb_true_iff in Hd as [Hx _].
  rewrite (ParseInt_digit_first x r Hx), Hv.
  destruct (Z.ltb_spec n MinInt64) as [Hlt|_]; [unfold MinInt64 in Hlt; lia|].
  destruct (Z.ltb_spec MaxInt64 n) as [Hgt|_]; [lia | reflexivity].
Qed.

End TextFacts.

(** ** Semantic versions *)

Module SemverFacts.
Import GoStd Semver TextFacts.

Lemma HasPrefix_v_digit (x : ascii) (r : string) :
  is_digit x = true -> HasPrefix (String x r) "v" = false.
Proof.
  intros Hx.
  change (HasPrefix (String x r) "v")
    with (if Ascii.eqb "v" x then HasPrefix r "" else false).
  destruct (Ascii.eqb_spec "v" x) as [<-|]; [|reflexivity].
  vm_compute in Hx. discriminate Hx.
Qed.

Lemma ParseVersion_body (prefix body pre base : string) (M m p : Z) :
  (prefix = "v" \/ (prefix = "" /\ HasPrefix body "v" = false)) ->
  SplitN2 "-" body = (if String.eqb pre "" then [body] else [base; pre]) ->
  (pre = "" -> body = base) ->
  Split "." base = [Itoa M; Itoa m; Itoa p] ->
  0 <= M <= MaxInt64 -> 0 <= m <= MaxInt64 -> 0 <= p <= MaxInt64 ->
  ParseVersion (prefix +:+ body)
  = {| Major := M; Minor := m; Patch := p; Prerelease := pre; Prefix := prefix |}.
Proof.
  intros Hprefix Hcut Hbody Hsplit HM Hm Hp. unfold ParseVersion.
  assert (Hstart : (if HasPrefix (prefix +:+ body) "v"
                    then ("v", TrimPrefix (prefix +:+ body) "v")
                    else ("", prefix +:+ body)) = (prefix, body)).
  { destruct Hprefix as [->|[-> Hno]].
    - rewrite HasPrefix_append, TrimPrefix_append. reflexivity.
    - rewrite append_nil_l, Hno. reflexivity. }
  rewrite Hstart, Hcut.
  destruct (String.eqb_spec pre "") as [->|Hpre].
  - rewrite (Hbody eq_refl), Hsplit. cbn [lookup list_lookup].
    rewrite !Atoi_Itoa by assumption. reflexivity.
  - rewrite Hsplit. cbn [lookup list_lookup].
    rewrite !Atoi_Itoa by assumption. reflexivity.
Qed.

(** X1: printing a version and parsing the text gives the version back,
    for a prefix that is empty or [v] and components between 0 and the
    largest [int]; the prerelease may be any text, dashes included. *)
Theorem X1_ParseVersion_String_roundtrip (v : Version) :
  (Prefix v = "" \/ Prefix v = "v") ->
  0 <= Major v <= MaxInt64 -> 0 <= Minor v <= MaxInt64 -> 0 <= Patch v <= MaxInt64 ->
  ParseVersion (Version_String v) = v.
Proof.
  destruct v as [M m p pre prefix]. cbn [Major Minor Patch Prerelease Prefix].
  intros Hprefix HM Hm Hp.
  destruct (Itoa_digits M) as [HdM HnM]; [lia|].
  destruct (Itoa_digits m) as [Hdm _]; [lia|].
  destruct (Itoa_digits p) as [Hdp _]; [lia|].
  set (base := Itoa M +:+ "." +:+ Itoa m +:+ "." +:+ Itoa p).
  assert (Hsplit : Split "." base = [Itoa M; Itoa m; Itoa p]).
  { unfold base. rewrite !append_cons, !append_nil_l.
    rewrite !Split_first, Split_lacks
      by (apply all_digits_lacks; [reflexivity | assumption]).
    reflexivity. }
  assert (Hdash : lacks "-" base = true).
  { unfold base. rewrite !append_cons, !append_nil_l, !lacks_append. cbn [lacks].
    rewrite !lacks_append. cbn [lacks].
    rewrite !(all_digits_lacks "-") by (reflexivity || assumption). reflexivity. }
  assert (Hfirst : forall tail, HasPrefix (base +:+ tail) "v" = false).
  { intros tail. unfold base. destruct (Itoa M) as [|x r]; [congruence|].
    cbn [all_digits] in HdM. apply andb_true_iff in HdM as [Hx _].
    rewrite !append_cons. apply HasPrefix_v_digit, Hx. }
  set (body := if String.eqb pre "" then base else base +:+ String "-" pre).
  assert (Hstring : Version_String {| Major := M; Minor := m; Patch := p;
                                      Prerelease := pre; Prefix := prefix |}
                    = prefix +:+ body).
  { unfold Version_String, body. cbn [Major Minor Patch Prerelease Prefix]. fold base.
    destruct (String.eqb pre ""); cbn [negb]; [reflexivity|].
    rewrite append_assoc, append_cons, append_nil_l. reflexivity. }
  rewrite Hstring. apply (ParseVersion_body prefix body pre base M m p); try assumption.
  - destruct Hprefix as [-> | ->]; [right|left; reflexivity]. split; [reflexivity|].
    unfold body. destruct (String.eqb pre "").
    + rewrite <- (append_nil_r base). apply Hfirst.
    + apply Hfirst.
  - unfold SplitN2, body. destruct (String.eqb pre "").
    + rewrite Cut_lacks by exact Hdash. reflexivity.
    + rewrite Cut_first by exact Hdash. reflexivity.
  - intros ->. reflexivity.
Qed.

Lemma X1_roundtrip_witness :
  ParseVersion (Version_String {| Major := 2; Minor := 10; Patch := 0;
                                  Prerelease := "rc-1"; Prefix := "v" |})
  = {| Major := 2; Minor := 10; Patch := 0; Prerelease := "rc-1"; Prefix := "v" |}.
Proof.
  apply (X1_ParseVersion_String_roundtrip
           {| Major := 2; Minor := 10; Patch := 0; Prerelease := "rc-1"; Prefix := "v" |});
    cbn; (auto || (unfold MaxInt64; lia)).
Defined.

Lemma existsb_Permutation {A} (f : A -> bool) (l l' : list A) :
  l ≡ₚ l' -> existsb f l = existsb f l'.
Proof.
  intros Hp. apply eq_true_iff_eq. rewrite !existsb_exists.
  split; intros (x & Hin & Hx); exists x; (split; [|exact Hx]);
    apply list_elem_of_In; apply list_elem_of_In in Hin;
    [rewrite <- Hp | rewrite Hp]; exact Hin.
Qed.

(** The first two outcomes of [DetermineBumpType]. *)
Lemma DetermineBumpType_major_minor (commits commits' : list ChangelogCommit) :
  (commits ≡ₚ commits' -> DetermineBumpType commits = DetermineBumpType commits')
  /\ (DetermineBumpType commits = "major" <-> exists c, In c commits /\ Breaking c = true)
  /\ (DetermineBumpType commits = "minor"
      <-> (forall c, In c commits -> Breaking c = false)
          /\ exists c, In c commits /\ (Type_ c = "feat" \/ Type_ c = "feature")).
Proof.
  split; [|split].
  - intros Hp. unfold DetermineBumpType.
    rewrite (existsb_Permutation Breaking _ _ Hp).
    rewrite (existsb_Permutation (fun c => _) _ _ Hp). reflexivity.
  - unfold DetermineBumpType. rewrite <- existsb_exists.
    destruct (existsb Breaking commits); [split; reflexivity|].
    destruct (existsb _ commits); split; discriminate.
  - unfold DetermineBumpType.
    destruct (existsb Breaking commits) eqn:Hb.
    + split; [discriminate|]. intros [Hno _].
      apply existsb_exists in Hb as (c & Hin & Hc). rewrite (Hno c Hin) in Hc.
      discriminate.
    + assert (Hno : forall c, In c commits -> Breaking c = false).
      { intros c Hin. destruct (Breaking c) eqn:Hc; [|reflexivity].
        assert (existsb Breaking commits = true) by (apply existsb_exists; eauto).
        congruence. }
      destruct (existsb (fun c => String.eqb (Type_ c) "feat"
                                  || String.eqb (Type_ c) "feature") commits) eqn:Hf.
      * split; [intros _|reflexivity]. split; [exact Hno|].
        apply existsb_exists in Hf as (c & Hin & Hc). exists c. split; [exact Hin|].
        apply orb_true_iff in Hc as [Hc|Hc]; apply String.eqb_eq in Hc; auto.
      * split; [discriminate|]. intros [_ (c & Hin & Hc)].
        assert (existsb (fun c => String.eqb (Type_ c) "feat"
                                  || String.eqb (Type_ c) "feature") commits = true)
          as Hyes.
        { apply existsb_exists. exists c. split; [exact Hin|].
          apply orb_true_iff. destruct Hc as [-> | ->]; [left|right]; reflexivity. }
        rewrite Hyes in Hf. discriminate.
Qed.

(** X2: the bump type does not depend on the order of the commits: it is
    [major] exactly when some commit is breaking, otherwise [minor] exactly
    when some commit has the type [feat] or [feature], and [patch] exactly
    when no commit is breaking and none has one of these two types, as for
    no commits at all; one breaking commit anywhere outweighs every
    feature. *)
Theorem X2_DetermineBumpType_order (commits commits' : list ChangelogCommit) :
  (commits ≡ₚ commits' -> DetermineBumpType commits = DetermineBumpType commits')
  /\ (DetermineBumpType commits = "major" <-> exists c, In c commits /\ Breaking c = true)
  /\ (DetermineBumpType commits = "minor"
      <-> (forall c, In c commits -> Breaking c = false)
          /\ exists c, In c commits /\ (Type_ c = "feat" \/ Type_ c = "feature"))
  /\ (DetermineBumpType commits = "patch"
      <-> forall c, In c commits ->
            Breaking c = false /\ Type_ c <> "feat" /\ Type_ c <> "feature")
  /\ DetermineBumpType [] = "patch".
Proof.
  destruct (DetermineBumpType_major_minor commits commits') as (Hperm & Hmajor & Hminor).
  split; [exact Hperm|]. split; [exact Hmajor|]. split; [exact Hminor|].
  split; [|reflexivity].
  assert (Hcases : DetermineBumpType commits = "major"
                   \/ DetermineBumpType commits = "minor"
                   \/ DetermineBumpType commits = "patch").
  { unfold DetermineBumpType. destruct (existsb Breaking commits); [auto|].
    destruct (existsb _ commits); auto. }
  split.
  - intros Hpatch c Hin.
    assert (Hb : Breaking c = false).
    { destruct (Breaking c) eqn:Hc; [|reflexivity].
      assert (DetermineBumpType commits = "major") as Hm by (apply Hmajor; eauto).
      rewrite Hpatch in Hm. discriminate. }
    assert (Hnominor : DetermineBumpType commits <> "minor")
      by (rewrite Hpatch; discriminate).
    assert (Hall : forall c', In c' commits -> Breaking c' = false).
    { intros c' Hin'. destruct (Breaking c') eqn:Hc; [|reflexivity].
      assert (DetermineBumpType commits = "major") as Hm by (apply Hmajor; eauto).
      rewrite Hpatch in Hm. discriminate. }
    split; [exact Hb|]. split; intros Hty; apply Hnominor, Hminor; eauto.
  - intros Hall. destruct Hcases as [Hm|[Hm|Hm]]; [| |exact Hm].
    + apply Hmajor in Hm as (c & Hin & Hc).
      destruct (Hall c Hin) as [Hb _]. congruence.
    + apply Hminor in Hm as (_ & c & Hin & Hty).
      destruct (Hall c Hin) as (_ & Hfeat & Hfeature). destruct Hty; contradiction.
Qed.

End SemverFacts.

(** ** The comparison of release versions *)

Module UpdateFacts.
Import GoStd Semver Update.

Section WithScan.
Context {Sc : GoScan}.

Lemma first_difference_swap (ls cs : list string) :
  first_difference cs ls = negb <$> first_difference ls cs.
Proof.
  revert cs. induction ls as [|l ls IH]; intros [|c cs]; try reflexivity.
  cbn [first_difference].
  destruct (Z.ltb_spec (Sscanf_d c) (Sscanf_d l)), (Z.ltb_spec (Sscanf_d l) (Sscanf_d c));
    try reflexivity; try lia.
  apply IH.
Qed.

(** X3: between two versions of which none is [dev] or empty, "newer" is
    one-sided: when [latest] is newer than [current], [current] is not newer
    than [latest], and no version is newer than itself.  Against a current
    version [dev] or empty every version is newer. *)
Theorem X3_isNewerVersion_asymmetric (latest current : string) :
  current <> "dev" -> current <> "" -> latest <> "dev" -> latest <> "" ->
  (isNewerVersion latest current = true -> isNewerVersion current latest = false)
  /\ isNewerVersion current current = false
  /\ (forall v, isNewerVersion v "dev" = true /\ isNewerVersion v "" = true).
Proof.
  intros Hc1 Hc2 Hl1 Hl2.
  assert (Hplain : forall a b, b <> "dev" -> b <> "" ->
            isNewerVersion a b
            = match first_difference (Split "." (TrimPrefix a "v"))
                                     (Split "." (TrimPrefix b "v")) with
              | Some verdict => verdict
              | None => (length (Split "." (TrimPrefix b "v"))
                         <? length (Split "." (TrimPrefix a "v")))%nat
              end).
  { intros a b Hb1 Hb2. unfold isNewerVersion.
    apply String.eqb_neq in Hb1, Hb2. rewrite Hb1, Hb2. reflexivity. }
  split; [|split].
  - rewrite !Hplain by assumption. rewrite (first_difference_swap _ (Split "." (TrimPrefix current "v"))).
    destruct (first_difference _ _) as [[]|]; cbn; try congruence.
    intros Hlt%Nat.ltb_lt. apply Nat.ltb_ge. lia.
  - rewrite Hplain by assumption.
    assert (Hsame : forall ps, first_difference ps ps = None).
    { induction ps as [|q ps IH]; [reflexivity|]. cbn [first_difference].
      rewrite Z.ltb_irrefl. exact IH. }
    rewrite Hsame. apply Nat.ltb_irrefl.
  - intros v. split; reflexivity.
Qed.

End WithScan.

Lemma X3_isNewerVersion_witness :
  (isNewerVersion (Sc := SampleMore.scan) "v1.10.0" "v1.9.3" = true ->
   isNewerVersion (Sc := SampleMore.scan) "v1.9.3" "v1.10.0" = false)
  /\ isNewerVersion (Sc := SampleMore.scan) "v1.9.3" "v1.9.3" = false
  /\ (forall v, isNewerVersion (Sc := SampleMore.scan) v "dev" = true
                /\ isNewerVersion (Sc := SampleMore.scan) v "" = true).
Proof.
  apply (X3_isNewerVersion_asymmetric (Sc := SampleMore.scan) "v1.10.0" "v1.9.3");
    discriminate.
Defined.

End UpdateFacts.

(** ** The logger *)

Module LoggingFacts.
Import Logging.

(** The last [k] elements of a list. *)
Definition last_n {A} (k : nat) (l : list A) : list A := skipn (length l - k) l.

Lemma last_n_app {A} (k : nat) (xs ys : list A) :
  last_n k (last_n k xs ++ ys) = last_n k (xs ++ ys).
Proof.
  unfold last_n. rewrite !length_app, !length_drop.
  destruct (Nat.le_gt_cases (length xs) k) as [Hle|Hgt].
  - replace (length xs - k)%nat with 0%nat by lia. cbn [drop]. f_equal. lia.
  - rewrite <- (drop_app_le xs ys (length xs - k)) by lia.
    rewrite drop_drop. f_equal. lia.
Qed.

Lemma last_n_length {A} (k : nat) (l : list A) : (length (last_n k l) <= k)%nat.
Proof. unfold last_n. rewrite length_drop. lia. Qed.

Lemma last_n_short {A} (k : nat) (l : list A) : (length l <= k)%nat -> last_n k l = l.
Proof. intros Hle. unfold last_n. replace (length l - k)%nat with 0%nat by lia. reflexivity. Qed.

(** The entries of the calls that pass the minimum level [lowest]. *)
Definition accepted (lowest : LogLevel) (calls : list (Z * LogLevel * string))
    : list LogEntry :=
  (fun c => {| Time := c.1.1; Level := c.1.2; Message := c.2 |})
    <$> List.filter (fun c => negb (c.1.2 <? lowest)) calls.

Section WithClock.
Context {K : GoClock}.

(** The line written for an entry. *)
Definition line_of (entry : LogEntry) : string :=
  "[" +:+ FormatTime (Time entry) +:+ "] " +:+ LevelString (Level entry)
  +:+ ": " +:+ Message entry +:+ String "010"%char "".

Lemma log_rejected (now : Z) (level : LogLevel) (message : string) (l : Logger) :
  level < minLevel l -> log now level message l = Some l.
Proof. intros Hlt. unfold log. destruct (Z.ltb_spec level (minLevel l)); [reflexivity|lia]. Qed.

Lemma log_accepted (now : Z) (level : LogLevel) (message : string) (l : Logger) :
  minLevel l <= level -> 1 <= maxSize l -> Z.of_nat (length (entries l)) <= maxSize l ->
  log now level message l
  = Some {| file := WriteString (line_of {| Time := now; Level := level; Message := message |})
                      <$> file l;
            entries := last_n (Z.to_nat (maxSize l))
                         (entries l ++ [{| Time := now; Level := level; Message := message |}]);
            maxSize := maxSize l; minLevel := minLevel l |}.
Proof.
  intros Hlv Hcap Hlen. unfold log.
  destruct (Z.ltb_spec level (minLevel l)); [lia|].
  destruct (Z.leb_spec (maxSize l) (Z.of_nat (length (entries l)))) as [Hfull|Hroom].
  - destruct (entries l) as [|e es] eqn:Hes; [cbn in Hfull; lia|].
    f_equal. f_equal. unfold last_n. rewrite length_app. cbn [length] in *.
    replace (S (length es) + 1 - Z.to_nat (maxSize l))%nat with 1%nat by lia.
    reflexivity.
  - f_equal. f_equal. rewrite last_n_short; [reflexivity|].
    rewrite length_app. cbn [length]. lia.
Qed.

(** X4: on a logger whose capacity is at least 1 and whose buffer does not
    exceed it, a sequence of [log] calls never panics; afterwards the buffer
    holds the most recent entries, at most as many as the capacity, of what
    it held followed by the messages at or above the minimum level, in
    order.  Messages below the level leave no entry. *)
Theorem X4_log_keeps_most_recent (calls : list (Z * LogLevel * string)) (l : Logger) :
  1 <= maxSize l -> Z.of_nat (length (entries l)) <= maxSize l ->
  exists l',
    logs calls l = Some l'
    /\ entries l' = last_n (Z.to_nat (maxSize l))
                           (entries l ++ accepted (minLevel l) calls)
    /\ Count l' <= maxSize l
    /\ maxSize l' = maxSize l /\ minLevel l' = minLevel l.
Proof.
  revert l. induction calls as [|[[now level] message] calls IH]; intros l Hcap Hlen.
  - exists l. cbn [logs accepted List.filter fmap list_fmap]. rewrite app_nil_r.
    rewrite last_n_short by lia. unfold Count. repeat split; (reflexivity || lia).
  - cbn [logs]. destruct (Z.lt_ge_cases level (minLevel l)) as [Hlow|Hhigh].
    + rewrite log_rejected by exact Hlow.
      destruct (IH l Hcap Hlen) as (l' & Hrun & Hent & Hrest). exists l'.
      split; [exact Hrun|]. split; [|exact Hrest].
      rewrite Hent. unfold accepted. cbn [List.filter fst snd].
      destruct (Z.ltb_spec level (minLevel l)); [reflexivity|lia].
    + rewrite log_accepted by assumption.
      set (entry := {| Time := now; Level := level; Message := message |}).
      set (l1 := {| file := _; entries := _; maxSize := maxSize l; minLevel := minLevel l |}).
      destruct (IH l1) as (l' & Hrun & Hent & Hcount & Hmax & Hmin).
      { exact Hcap. }
      { cbn [l1 entries maxSize]. pose proof (last_n_length (Z.to_nat (maxSize l))
                                               (entries l ++ [entry])). lia. }
      exists l'. split; [exact Hrun|]. cbn [l1 maxSize minLevel entries] in *.
      split; [|repeat split; assumption].
      rewrite Hent, last_n_app, <- app_assoc. unfold accepted. cbn [List.filter fst snd].
      destruct (Z.ltb_spec level (minLevel l)); [lia|]. reflexivity.
Qed.

(** X5: a logger built with capacity 0 panics on the first message it
    accepts (it slices its empty buffer from index 1); messages below the
    minimum level pass.  Building a logger with a negative capacity panics
    as well, unless opening the file has failed first. *)
Theorem X5_zero_capacity_panics (now : Z) (level : LogLevel) (message : string) :
  exists l0,
    NewLogger None 0 = Some (Ok l0)
    /\ (minLevel l0 <= level -> log now level message l0 = None)
    /\ (level < minLevel l0 -> log now level message l0 = Some l0)
    /\ (forall n, n < 0 -> NewLogger None n = None)
    /\ (forall n err, NewLogger (Some err) n = Some (Err err)).
Proof.
  eexists. split; [reflexivity|]. cbn [minLevel]. repeat split.
  - intros Hlv. unfold log. cbn [minLevel maxSize entries length].
    destruct (Z.ltb_spec level LogInfo); [lia|]. reflexivity.
  - intros Hlv. apply log_rejected. exact Hlv.
  - intros n Hn. unfold NewLogger. destruct (Z.ltb_spec n 0); [reflexivity|lia].
Qed.

(** X6: as long as the file is open every accepted message is appended to
    it as one line, whatever the buffer has dropped in the meantime; once
    the logger is closed the file no longer changes although the buffer
    goes on recording. *)
Theorem X6_file_keeps_every_line (calls : list (Z * LogLevel * string))
    (l l' : Logger) (f : File) :
  file l = Some f ->
  logs calls l = Some l' ->
  file l' = Some (if Closed f then f
                  else {| Closed := false;
                          Lines := Lines f ++ (line_of <$> accepted (minLevel l) calls) |}).
Proof.
  revert l f. induction calls as [|[[now level] message] calls IH]; intros l f Hf.
  - cbn [logs]. intros [= <-]. rewrite Hf. cbn. rewrite app_nil_r.
    destruct f as [[] ls]; reflexivity.
  - cbn [logs]. unfold log at 1.
    destruct (Z.ltb_spec level (minLevel l)) as [Hlow|Hhigh].
    + intros Hrun. rewrite (IH l f Hf Hrun). unfold accepted. cbn [List.filter fst snd].
      destruct (Z.ltb_spec level (minLevel l)); [reflexivity|lia].
    + destruct (if maxSize l <=? Z.of_nat (length (entries l)) then _ else _)
        as [kept|]; [|discriminate].
      intros Hrun.
      eapply IH in Hrun; [|cbn [file]; rewrite Hf; reflexivity]. rewrite Hrun.
      cbn [minLevel]. unfold accepted. cbn [List.filter fst snd].
      destruct (Z.ltb_spec level (minLevel l)); [lia|]. cbn [negb fmap list_fmap].
      unfold WriteString. destruct f as [[] ls]; cbn [Closed Lines]; [reflexivity|].
      rewrite <- app_assoc. reflexivity.
Qed.

End WithClock.

(** A logger of capacity 2 at the level [LogInfo], and four calls of which
    the second is below the level. *)
Definition small_logger : Logger :=
  {| file := Some {| Closed := false; Lines := [] |};
     entries := []; maxSize := 2; minLevel := LogInfo |}.

Definition four_calls : list (Z * LogLevel * string) :=
  [(1, LogInfo, "started"); (2, LogDebug, "detail");
   (3, LogWarn, "slow"); (4, LogError, "failed")].

Lemma X4_log_witness :
  exists l',
    logs (K := SampleMore.clock) four_calls small_logger = Some l'
    /\ entries l' = last_n (Z.to_nat (maxSize small_logger))
                           (entries small_logger ++ accepted (minLevel small_logger) four_calls)
    /\ Count l' <= maxSize small_logger
    /\ maxSize l' = maxSize small_logger /\ minLevel l' = minLevel small_logger.
Proof.
  apply (X4_log_keeps_most_recent (K := SampleMore.clock) four_calls small_logger);
    cbn; lia.
Defined.

(** What that run leaves: the two most recent accepted entries in the
    buffer, all three accepted lines in the file. *)
Lemma small_logger_run :
  (fun l => (entries l, Lines <$> file l))
    <$> logs (K := SampleMore.clock) four_calls small_logger
  = Some ([{| Time := 3; Level := LogWarn; Message := "slow" |};
           {| Time := 4; Level := LogError; Message := "failed" |}],
          Some ["[1] INFO: started" +:+ String "010"%char "";
                "[3] WARN: slow" +:+ String "010"%char "";
                "[4] ERROR: failed" +:+ String "010"%char ""]).
Proof. vm_compute. reflexivity. Qed.

Lemma X6_file_witness :
  exists l',
    logs (K := SampleMore.clock) four_calls small_logger = Some l'
    /\ file l' = Some {| Closed := false;
                         Lines := [] ++ (line_of (K := SampleMore.clock)
                                           <$> accepted LogInfo four_calls) |}.
Proof.
  eexists. split.
  - vm_compute. reflexivity.
  - apply (X6_file_keeps_every_line (K := SampleMore.clock) four_calls small_logger _
             {| Closed := false; Lines := [] |}); vm_compute; reflexivity.
Defined.

(** X7: [Last n] returns the [n] most recent entries of the buffer, all of
    them when there are fewer, and nothing for [n = 0]; for a negative [n]
    it panics. *)
Theorem X7_Last_suffix (n : Z) (l : Logger) :
  (0 <= n ->
   exists older es, Last n l = Some es /\ entries l = older ++ es
                    /\ Z.of_nat (length es) = Z.min n (Count l))
  /\ (n < 0 -> Last n l = None).
Proof.
  split.
  - intros Hn. unfold Last. destruct (Z.leb_spec (Count l) n) as [Hall|Hsome].
    + exists [], (entries l). repeat split. unfold Count in *. lia.
    + destruct (Z.ltb_spec n 0); [lia|].
      exists (firstn (Z.to_nat (Count l - n)) (entries l)),
             (skipn (Z.to_nat (Count l - n)) (entries l)).
      split; [reflexivity|]. split; [symmetry; apply take_drop|].
      rewrite length_drop. unfold Count in *. lia.
  - intros Hn. unfold Last. destruct (Z.leb_spec (Count l) n) as [Hall|_].
    + unfold Count in Hall. lia.
    + destruct (Z.ltb_spec n 0); [reflexivity|lia].
Qed.

End LoggingFacts.

(** ** The secret cipher, continued *)

Module CipherMore.
Import GoStd Cipher.

Section WithCrypto.
Context {C : Crypto} {CS : CryptoSpec C}.

(** What a token is made of: the nonce, in clear, in front of the sealed
    text, in base64. *)
Lemma encrypt_token (m : Machine) (rand : list ascii) (s token : string) :
  encrypt m rand s = Ok token ->
  (12 <= length rand)%nat
  /\ Base64.DecodeString token
     = Ok (firstn 12 rand
           ++ gcmSeal (encryptionKey m) (firstn 12 rand) (list_ascii_of_string s)).
Proof.
  unfold encrypt.
  destruct (CipherFacts.NewCipher_encryptionKey m) as [-> _]. cbn [NewGCM].
  unfold ReadFull, NonceSize.
  destruct (Nat.leb_spec 12 (length rand)) as [Hle|]; [|discriminate].
  intros [= <-]. split; [exact Hle|].
  apply Base64Facts.DecodeString_EncodeToString.
Qed.


(** X9: [encrypt] fails exactly when the random source cannot deliver 12
    bytes, and two tokens whose nonces differ are different tokens, whatever
    the plaintexts. *)
Theorem X9_nonce_separates_tokens (m : Machine) (rand1 rand2 : list ascii)
    (s1 s2 t1 t2 : string) :
  encrypt m rand1 s1 = Ok t1 -> encrypt m rand2 s2 = Ok t2 ->
  firstn 12 rand1 <> firstn 12 rand2 ->
  t1 <> t2
  /\ forall rand s, (exists err, encrypt m rand s = Err err) <-> (length rand < 12)%nat.
Proof.
  intros H1 H2 Hnonce. split.
  - intros <-.
    apply encrypt_token in H1 as [Hr1 H1], H2 as [Hr2 H2].
    rewrite H1 in H2. injection H2 as H2.
    apply app_inj_1 in H2 as [H2 _]; [congruence|].
    rewrite !length_take. lia.
  - intros rand s. split.
    + intros [err Herr].
      destruct (Nat.lt_ge_cases (length rand) 12) as [Hlt|Hge]; [exact Hlt|].
      destruct (CipherFacts.encrypt_enough_random m rand s Hge) as [token Hok].
      congruence.
    + intros Hlt. unfold encrypt.
      destruct (CipherFacts.NewCipher_encryptionKey m) as [-> _]. cbn [NewGCM].
      unfold ReadFull, NonceSize.
      destruct (Nat.leb_spec 12 (length rand)); [lia|]. eauto.
Qed.

End WithCrypto.


(** A hash whose digests have 20 bytes: the key is refused, and that is
    the error [decrypt] returns for the same token. *)
Definition short_digest : Crypto :=
  {| Sum256 := fun _ => repeat Base64.zero 20;
     gcmSeal := fun _ _ plaintext => plaintext;
     gcmOpen := fun _ _ sealed => Some sealed |}.

Lemma decrypt_refused_key :
  decrypt (C := short_digest) Sample.machine
          (Base64.EncodeToString (list_ascii_of_string "short"))
  = Err (SysError "crypto/aes: invalid key size").
Proof. vm_compute. reflexivity. Qed.

Lemma X9_nonce_witness :
  exists t1 t2,
    encrypt (C := Sample.crypto) Sample.machine (repeat "A"%char 12) "ghp_a" = Ok t1
    /\ encrypt (C := Sample.crypto) Sample.machine (repeat "B"%char 12) "ghp_a" = Ok t2
    /\ t1 <> t2.
Proof.
  eexists _, _. split; [vm_compute; reflexivity|]. split; [vm_compute; reflexivity|].
  apply (@X9_nonce_separates_tokens Sample.crypto CipherFacts.sample_crypto_spec
           Sample.machine (repeat "A"%char 12) (repeat "B"%char 12) "ghp_a" "ghp_a").
  - vm_compute. reflexivity.
  - vm_compute. reflexivity.
  - discriminate.
Defined.

End CipherMore.

(** ** The account manager, continued *)

Module VaultMore.
Import GoStd Cipher Vault VaultFacts.

(** Every identity is stored under its own name. *)
Definition named (am : AccountManager) : Prop :=
  forall n acc, accounts am !! n = Some acc -> Name acc = n.

Lemma defaults_at_most_current (am : AccountManager) :
  consistent am ->
  (length (defaults am) <= 1)%nat /\ forall n, n ∈ defaults am -> n = current am.
Proof.
  intros [Hflag _]. unfold defaults.
  set (flagged := filter (fun kv : string * Account => IsDefault kv.2 = true) (accounts am)).
  assert (Hkeys : forall n acc, flagged !! n = Some acc -> n = current am).
  { intros n acc [Hn Hdef]%map_lookup_filter_Some. eapply Hflag; eassumption. }
  split.
  - destruct (flagged !! current am) as [acc|] eqn:Hcur.
    + assert (flagged = {[current am := acc]}) as ->.
      { apply map_eq. intros n. destruct (decide (n = current am)) as [->|Hne].
        - rewrite lookup_singleton_eq. exact Hcur.
        - rewrite lookup_singleton_ne by congruence.
          destruct (flagged !! n) as [acc'|] eqn:Hn; [|reflexivity].
          apply Hkeys in Hn. congruence. }
      rewrite map_to_list_singleton. cbn. lia.
    + assert (flagged = ∅) as ->.
      { apply map_eq. intros n. rewrite lookup_empty.
        destruct (flagged !! n) as [acc'|] eqn:Hn; [|reflexivity].
        pose proof (Hkeys _ _ Hn) as ->. congruence. }
      rewrite map_to_list_empty. cbn. lia.
  - intros n ([n' acc] & -> & Hin)%list_elem_of_fmap.
    apply elem_of_map_to_list in Hin. eapply Hkeys, Hin.
Qed.

Lemma named_Remove (removed : option error) (seed : nat) (am : AccountManager)
    (name : string) :
  named am -> named (Remove removed seed am name).2.
Proof.
  intros Hn. unfold Remove. destruct (accounts am !! name); [|exact Hn].
  destruct removed; [exact Hn|]. intros n acc. cbn [snd accounts].
  intros [_ Hacc]%lookup_delete_Some. eapply Hn, Hacc.
Qed.

Lemma named_Switch (am : AccountManager) (name : string) :
  named am -> named (Switch am name).2.
Proof.
  intros Hn. destruct (accounts am !! name) as [acc0|] eqn:Hname.
  - intros n acc. rewrite Switch_lookup by eauto.
    destruct (accounts am !! n) as [acc1|] eqn:Hacc; [|discriminate].
    intros [= <-]. cbn. eapply Hn, Hacc.
  - unfold Switch. rewrite Hname. exact Hn.
Qed.

Section WithLibraries.
Context {C : Crypto} {S : GoStrings}.

Lemma named_Add (m : Machine) (rand : list ascii) (now : Z) (saved : option error)
    (am : AccountManager) (name username email pat : string) :
  named am -> named (Add m rand now saved am name username email pat).2.
Proof.
  intros Hn. unfold Add. destruct (accounts am !! name); [exact Hn|].
  destruct (encrypt m rand (TrimSpace pat)); [|exact Hn].
  destruct saved; [exact Hn|]. intros n acc. cbn [snd accounts].
  intros [[<- <-]|[_ Hacc]]%lookup_insert_Some; [reflexivity|].
  eapply Hn, Hacc.
Qed.

Lemma run_named (m : Machine) (am : AccountManager) (calls : list call) :
  named am -> named (run m am calls).
Proof.
  unfold run. revert am. induction calls as [|c calls IH]; intros am Ham; [exact Ham|].
  cbn [fold_left]. apply IH. destruct c; cbn [step].
  - apply named_Add, Ham.
  - apply named_Remove, Ham.
  - apply named_Switch, Ham.
Qed.

(** X10: whatever calls of [Add], [Remove] and [Switch] were made on a
    manager that started empty, and whatever their outcomes, every identity
    is stored under its own name, at most one identity carries the
    is-default flag, that one is the current identity, and the current name
    designates a stored identity as long as one is left. *)
Theorem X10_run_invariants (m : Machine) (d : string) (calls : list call) :
  let am := run m (NewAccountManager d) calls in
  (forall n acc, Get am n = Some acc -> Name acc = n)
  /\ (length (defaults am) <= 1)%nat
  /\ (forall n, n ∈ defaults am -> n = CurrentName am)
  /\ (accounts am <> ∅ -> is_Some (Get am (CurrentName am))).
Proof.
  intros am. pose proof (run_consistent m d calls) as Hc. fold am in Hc.
  destruct (defaults_at_most_current am Hc) as [Hlen Hcur].
  split; [|split; [exact Hlen|split; [exact Hcur|exact (proj2 Hc)]]].
  apply run_named. intros n acc Hn. cbn in Hn. rewrite lookup_empty in Hn. discriminate.
Qed.

(** X11: a call that returns an error leaves the manager as it was.
    [Remove] fails exactly when the name is unknown or the record's file
    cannot be deleted, [Switch] exactly when the name is unknown, and [Add]
    whenever the name is taken or the record cannot be written. *)
Theorem X11_failed_call_changes_nothing (m : Machine) (am : AccountManager) :
  (forall rand now saved name username email pat,
      let r := Add m rand now saved am name username email pat in
      (r.1 <> None -> r.2 = am)
      /\ (is_Some (accounts am !! name) \/ saved <> None -> r.1 <> None))
  /\ (forall removed seed name,
        let r := Remove removed seed am name in
        (r.1 <> None -> r.2 = am)
        /\ (r.1 <> None <-> accounts am !! name = None \/ removed <> None))
  /\ (forall name,
        let r := Switch am name in
        (r.1 <> None -> r.2 = am)
        /\ (r.1 <> None <-> accounts am !! name = None)).
Proof.
  split; [|split].
  - intros rand now saved name username email pat r. subst r. unfold Add.
    destruct (accounts am !! name) as [acc|].
    { split; [reflexivity | discriminate]. }
    destruct (encrypt m rand (TrimSpace pat)) as [token|err].
    + destruct saved as [err|]; cbn [fst snd]; split; try reflexivity;
        try discriminate; try congruence.
      intros [[acc Hacc]|Hsaved]; congruence.
    + split; [reflexivity | discriminate].
  - intros removed seed name r. subst r. unfold Remove.
    destruct (accounts am !! name) as [acc|].
    + destruct removed as [err|]; cbn [fst snd].
      * split; [reflexivity|]. split; [right|]; discriminate.
      * split; [congruence|]. split; [congruence|]. intros [|]; congruence.
    + cbn [fst snd]. split; [reflexivity|]. split; [left; reflexivity | discriminate].
  - intros name r. subst r. unfold Switch.
    destruct (accounts am !! name) as [acc|]; cbn [fst snd].
    + split; [congruence|]. split; congruence.
    + split; [reflexivity|]. split; [reflexivity | discriminate].
Qed.

End WithLibraries.

(** X12: a [Switch] to a stored identity succeeds and leaves exactly one
    is-default flag, on that identity; the identities are the same as
    before, unchanged but for their flags, and [Current] returns the
    chosen one unless its name is the empty string, for which [Current]
    returns nothing. *)
Theorem X12_Switch_moves_the_flag (am : AccountManager) (name : string) (acc : Account) :
  accounts am !! name = Some acc ->
  let am' := (Switch am name).2 in
  (Switch am name).1 = None
  /\ defaults am' = [name]
  /\ CurrentName am' = name
  /\ (forall n, Get am' n = set_IsDefault (String.eqb n name) <$> Get am n)
  /\ Current am' = (if String.eqb name "" then None else Some (set_IsDefault true acc)).
Proof.
  intros Hacc am'.
  assert (Hlook : forall n, accounts am' !! n
                            = set_IsDefault (String.eqb n name) <$> accounts am !! n).
  { intros n. apply Switch_lookup. eauto. }
  assert (Hcur : current am' = name).
  { subst am'. unfold Switch. rewrite Hacc. reflexivity. }
  split; [unfold Switch; rewrite Hacc; reflexivity|].
  split; [|split; [exact Hcur|split; [exact Hlook|]]].
  - unfold defaults.
    assert (filter (fun kv : string * Account => IsDefault kv.2 = true) (accounts am')
            = {[name := set_IsDefault true acc]}) as ->.
    { apply map_eq. intros n. apply option_eq. intros x.
      rewrite map_lookup_filter_Some, lookup_singleton_Some, Hlook. cbn [snd]. split.
      - intros [Hn Hdef]. destruct (accounts am !! n) as [acc1|] eqn:Hn1; [|discriminate].
        injection Hn as <-. cbn in Hdef. apply String.eqb_eq in Hdef as ->.
        rewrite String.eqb_refl. split; congruence.
      - intros [<- <-]. rewrite Hacc, String.eqb_refl. split; reflexivity. }
    rewrite map_to_list_singleton. reflexivity.
  - unfold Current. rewrite Hcur. destruct (String.eqb name ""); [reflexivity|].
    rewrite Hlook, Hacc, String.eqb_refl. reflexivity.
Qed.

Lemma range_first_empty (seed : nat) : range_first ∅ seed = None.
Proof. unfold range_first. rewrite map_to_list_empty. reflexivity. Qed.

(** X13: a [Remove] that succeeds deletes that identity and no other.
    Removing an identity that is not the current one leaves the current
    one in place; removing the current one makes one of the remaining
    identities current, and leaves no current identity when it was the
    last. *)
Theorem X13_Remove_frame (seed : nat) (am : AccountManager) (name : string)
    (acc : Account) :
  accounts am !! name = Some acc ->
  let am' := (Remove None seed am name).2 in
  (Remove None seed am name).1 = None
  /\ Get am' name = None
  /\ (forall n, n <> name -> Get am' n = Get am n)
  /\ (CurrentName am <> name -> CurrentName am' = CurrentName am)
  /\ (CurrentName am = name ->
      if decide (accounts am' = ∅) then CurrentName am' = "" /\ Current am' = None
      else is_Some (Get am' (CurrentName am')) /\ CurrentName am' <> name).
Proof.
  intros Hacc am'. subst am'. unfold Remove, Get, CurrentName. rewrite Hacc.
  cbn [fst snd accounts current].
  split; [reflexivity|]. split; [apply lookup_delete_eq|].
  split; [intros n Hn; apply lookup_delete_ne; congruence|]. split.
  - intros Hne. destruct (String.eqb_spec (current am) name); [congruence | reflexivity].
  - intros ->. rewrite String.eqb_refl.
    destruct (decide (delete name (accounts am) = ∅)) as [Hempty|Hleft].
    + rewrite Hempty, range_first_empty. split; reflexivity.
    + destruct (range_first_nonempty _ seed Hleft) as [n Hn]. rewrite Hn. cbn [default].
      pose proof (range_first_in _ _ _ Hn) as [acc' Hin].
      split; [eauto|]. intros Heq.
      apply lookup_delete_Some in Hin as [Hne _]. unfold id in Heq. congruence.
Qed.

Section Secrets.
Context {C : Crypto} {CS : CryptoSpec C} {S : GoStrings}.

(** X14: after a successful [Add], [GetPAT] returns the token that was
    given, trimmed by [Add] and trimmed again by [GetPAT]; the tokens of
    the other identities read as before, and neither a [Switch] nor the
    [Remove] of another identity changes what [GetPAT] returns. *)
Theorem X14_GetPAT_after_Add (m : Machine) (rand : list ascii) (now : Z)
    (am : AccountManager) (name username email pat : string) :
  accounts am !! name = None -> (12 <= length rand)%nat ->
  let r := Add m rand now None am name username email pat in
  r.1 = None
  /\ GetPAT m r.2 name = Ok (TrimSpace (TrimSpace pat))
  /\ (forall other, other <> name -> GetPAT m r.2 other = GetPAT m am other)
  /\ (forall to, GetPAT m (Switch r.2 to).2 name = GetPAT m r.2 name)
  /\ (forall removed seed other, other <> name ->
        GetPAT m (Remove removed seed r.2 other).2 name = GetPAT m r.2 name).
Proof.
  intros Hfresh Hrand r. subst r. unfold Add. rewrite Hfresh.
  destruct (CipherFacts.encrypt_enough_random m rand (TrimSpace pat) Hrand)
    as [token Htoken].
  rewrite Htoken. cbn [fst snd].
  set (acc := {| Name := name; PAT := token |}).
  set (am1 := {| dir := dir am; accounts := <[name:=acc]> (accounts am) |}).
  assert (Hget : GetPAT m am1 name = Ok (TrimSpace (TrimSpace pat))).
  { unfold GetPAT. cbn [am1 accounts]. rewrite lookup_insert_eq. cbn [acc PAT].
    rewrite (CipherFacts.decrypt_encrypt m rand _ token Htoken). reflexivity. }
  split; [reflexivity|]. split; [exact Hget|]. split; [|split].
  - intros other Hne. unfold GetPAT. cbn [am1 accounts].
    rewrite lookup_insert_ne by congruence. reflexivity.
  - intros to. destruct (accounts am1 !! to) as [acc'|] eqn:Hto.
    + unfold GetPAT at 1. rewrite Switch_lookup by eauto.
      unfold GetPAT. destruct (accounts am1 !! name); reflexivity.
    + unfold Switch. rewrite Hto. reflexivity.
  - intros removed seed other Hne. unfold Remove.
    destruct (accounts am1 !! other); [|reflexivity].
    destruct removed; [reflexivity|]. unfold GetPAT. cbn [snd accounts].
    rewrite lookup_delete_ne by congruence. reflexivity.
Qed.

End Secrets.

(** Two identities, [work] added first. *)
Definition two_accounts : AccountManager :=
  run (C := Sample.crypto) (S := Sample.strings) Sample.machine
      (NewAccountManager "accounts")
      [CallAdd Sample.nonce 1 None "work" "alice" "alice@example.com" "ghp_a";
       CallAdd Sample.nonce 2 None "home" "alice" "alice@example.org" "ghp_b"].

Lemma X12_Switch_witness :
  defaults two_accounts = ["work"]
  /\ exists acc,
      accounts two_accounts !! "home" = Some acc
      /\ defaults (Switch two_accounts "home").2 = ["home"]
      /\ Current (Switch two_accounts "home").2 = Some (set_IsDefault true acc).
Proof.
  split; [vm_compute; reflexivity|].
  eexists. split; [vm_compute; reflexivity|].
  split; eapply (X12_Switch_moves_the_flag two_accounts "home"); vm_compute; reflexivity.
Defined.

Lemma X13_Remove_witness :
  (Remove None 0 two_accounts "work").1 = None
  /\ Get (Remove None 0 two_accounts "work").2 "work" = None
  /\ CurrentName (Remove None 0 two_accounts "work").2 = "home".
Proof.
  destruct (accounts two_accounts !! "work") as [acc|] eqn:Hacc;
    [|vm_compute in Hacc; discriminate Hacc].
  destruct (X13_Remove_frame 0 two_accounts "work" acc Hacc) as (Hok & Hgone & _).
  split; [exact Hok|]. split; [exact Hgone|]. vm_compute. reflexivity.
Defined.

Lemma X14_GetPAT_witness :
  GetPAT (C := Sample.crypto) (S := Sample.strings) Sample.machine
         (Add (C := Sample.crypto) (S := Sample.strings) Sample.machine Sample.nonce 1 None
              (NewAccountManager "accounts") "work" "alice" "alice@example.com"
              " ghp_a ").2
         "work"
  = Ok "ghp_a".
Proof.
  apply (X14_GetPAT_after_Add (C := Sample.crypto) (CS := CipherFacts.sample_crypto_spec)
           (S := Sample.strings) Sample.machine Sample.nonce 1
           (NewAccountManager "accounts") "work" "alice" "alice@example.com" " ghp_a ").
  - reflexivity.
  - vm_compute. lia.
Defined.

End VaultMore.

(** ** The protected-repository manager, continued *)

Module RegistryMore.
Import GoStd Registry RegistryFacts.

Lemma with_repos_id (pm : ProtectedRepoManager) : with_repos pm (repos pm) = pm.
Proof. destruct pm. reflexivity. Qed.

Lemma Abs_with_wd (d p : string) : is_Some (Abs (Some d) p).
Proof. unfold Abs. destruct (IsAbs p); eauto. Qed.

(** Without an exact guard, looking for a covering guard and asking
    whether one exists agree. *)
Lemma find_covering (a : string) (l : list (string * ProtectedRepo)) :
  (forall k v, In (k, v) l -> a <> k) ->
  snd <$> List.find (fun '(protectedPath, _) => isSubPath a protectedPath) l = None
  <-> existsb (fun protectedPath =>
                 String.eqb a protectedPath || isSubPath a protectedPath) (l.*1) = false.
Proof.
  induction l as [|[k v] l IH]; intros Hne; [split; reflexivity|].
  cbn [List.find fmap list_fmap existsb fst].
  assert (Hk : String.eqb a k = false).
  { apply String.eqb_neq. apply (Hne k v). left. reflexivity. }
  rewrite Hk. cbn [orb]. destruct (isSubPath a k).
  - split; discriminate.
  - cbn [orb]. apply IH. intros k' v' Hin. apply (Hne k' v'). right. exact Hin.
Qed.

(** X15: [GetProtection] finds a guard exactly when [IsProtected] answers
    true. *)
Theorem X15_GetProtection_agrees_with_IsProtected (wd : option string)
    (pm : ProtectedRepoManager) (p : string) :
  GetProtection wd pm p = None <-> IsProtected wd pm p = false.
Proof.
  unfold GetProtection.
  destruct (Abs wd p) as [a|] eqn:Habs.
  - destruct (repos pm !! a) as [repo|] eqn:Ha.
    + rewrite (IsProtected_exact wd pm p a Habs) by eauto. split; discriminate.
    + unfold IsProtected. rewrite Habs. apply find_covering.
      intros k v Hin%list_elem_of_In%elem_of_map_to_list ->. congruence.
  - unfold IsProtected. rewrite Habs. split; reflexivity.
Qed.

Lemma Protect_lookup (wd : option string) (now : Z) (saved : option error)
    (pm : ProtectedRepoManager) (p password a : string) :
  Abs wd p = Some a ->
  GetProtection wd (Protect wd now saved pm p password).2 p
  = Some (guard_for a password now).
Proof.
  intros Habs. rewrite (Protect_spec _ _ _ _ _ _ a Habs). cbn [snd].
  unfold GetProtection. rewrite Habs. cbn [with_repos repos].
  rewrite lookup_insert_eq. reflexivity.
Qed.

(** X16: after [Protect] on a path that canonicalises - also when writing
    the document failed - the path is protected, its guard is the new one,
    the password just set verifies, a guard set without password admits
    every password, and every other guard is as before. *)
Theorem X16_Protect_then_lookups (wd : option string) (now : Z) (saved : option error)
    (pm : ProtectedRepoManager) (p password a : string) :
  Abs wd p = Some a ->
  let pm' := (Protect wd now saved pm p password).2 in
  IsProtected wd pm' p = true
  /\ GetProtection wd pm' p = Some (guard_for a password now)
  /\ VerifyAccess wd pm' p password = true
  /\ (password = "" -> forall other, VerifyAccess wd pm' p other = true)
  /\ (forall k, k <> a -> repos pm' !! k = repos pm !! k).
Proof.
  intros Habs pm'. subst pm'. rewrite (Protect_spec _ _ _ _ _ _ a Habs). cbn [snd].
  pose proof (Protect_lookup wd now saved pm p password a Habs) as Hget.
  rewrite (Protect_spec _ _ _ _ _ _ a Habs) in Hget. cbn [snd] in Hget.
  split; [|split; [exact Hget|split; [|split]]].
  - apply (IsProtected_exact _ _ _ a Habs). cbn [with_repos repos].
    rewrite lookup_insert_eq. eauto.
  - unfold VerifyAccess. rewrite Hget. cbn [guard_for Password].
    destruct (String.eqb password ""); cbn [negb]; [reflexivity|].
    destruct (String.eqb_spec (hashPassword password) "") as [Hempty|_]; [reflexivity|].
    apply verifyPassword_refl.
  - intros -> other. unfold VerifyAccess. rewrite Hget. reflexivity.
  - intros k Hk. cbn [with_repos repos]. apply lookup_insert_ne. congruence.
Qed.

Lemma Unprotect_after_Protect (wd : option string) (now : Z)
    (saved saved' : option error) (pm : ProtectedRepoManager) (p password a : string) :
  Abs wd p = Some a ->
  Unprotect wd saved' (Protect wd now saved pm p password).2 p password
  = (saved', with_repos pm (delete a (repos pm))).
Proof.
  intros Habs. rewrite (Protect_spec _ _ _ _ _ _ a Habs). cbn [snd].
  unfold Unprotect. rewrite Habs. cbn [with_repos repos path].
  rewrite lookup_insert_eq. cbn [guard_for Password].
  replace (negb _ && negb _) with false.
  - rewrite delete_insert_eq. reflexivity.
  - destruct (String.eqb password ""); cbn [negb]; [reflexivity|].
    rewrite verifyPassword_refl. cbn [negb]. rewrite andb_false_r. reflexivity.
Qed.

(** X17: [Unprotect] with the password just given to [Protect] always
    succeeds (up to writing the document) and removes the guard; when the
    path had no guard of its own before, the registry is back to what it
    was.  A guard that [Protect] replaced is not restored. *)
Theorem X17_Protect_Unprotect_roundtrip (wd : option string) (now : Z)
    (saved saved' : option error) (pm : ProtectedRepoManager) (p password a : string) :
  Abs wd p = Some a ->
  Unprotect wd saved' (Protect wd now saved pm p password).2 p password
  = (saved', with_repos pm (delete a (repos pm)))
  /\ (repos pm !! a = None ->
      Unprotect wd saved' (Protect wd now saved pm p password).2 p password = (saved', pm)).
Proof.
  intros Habs. pose proof (Unprotect_after_Protect wd now saved saved' pm p password a Habs)
    as Hgo.
  split; [exact Hgo|]. intros Hnone. rewrite Hgo, delete_id by exact Hnone.
  rewrite with_repos_id. reflexivity.
Qed.

(** X18: [UpdateLastAccessed] changes no answer of [IsProtected] and no
    stored path, password or protection time; it stamps the guard stored
    at the canonical path itself, if there is one, and touches no other
    guard. *)
Theorem X18_UpdateLastAccessed_keeps_guards (wd : option string) (now : Z)
    (pm : ProtectedRepoManager) (p : string) :
  let pm' := UpdateLastAccessed wd now pm p in
  (forall wd' q, IsProtected wd' pm' q = IsProtected wd' pm q)
  /\ (forall k, (fun g => (Path g, Password g, ProtectedAt g)) <$> repos pm' !! k
                = (fun g => (Path g, Password g, ProtectedAt g)) <$> repos pm !! k)
  /\ (forall a, Abs wd p = Some a ->
        (forall k, k <> a -> repos pm' !! k = repos pm !! k)
        /\ (LastAccessed <$> repos pm' !! a = (fun _ => Some now) <$> repos pm !! a)).
Proof.
  intros pm'. subst pm'. unfold UpdateLastAccessed.
  destruct (repos pm !! default "" (Abs wd p)) as [repo|] eqn:Hrepo.
  - remember (default "" (Abs wd p)) as a eqn:Ha.
    set (repo' := {| Path := Path repo; LastAccessed := Some now |}).
    assert (Hsome : forall k, is_Some (<[a:=repo']> (repos pm) !! k) <-> is_Some (repos pm !! k)).
    { intros k. rewrite lookup_insert_is_Some'. split; [|tauto].
      intros [<-|Hk]; [eauto | exact Hk]. }
    split; [|split].
    + intros wd' q. apply eq_true_iff_eq. rewrite !IsProtected_true.
      cbn [with_repos repos]. setoid_rewrite Hsome. reflexivity.
    + intros k. cbn [with_repos repos]. destruct (decide (k = a)) as [->|Hne].
      * rewrite lookup_insert_eq, Hrepo. reflexivity.
      * rewrite lookup_insert_ne by congruence. reflexivity.
    + intros a' Habs. rewrite Habs in Ha. change (a = a') in Ha. subst a'.
      cbn [with_repos repos]. split.
      * intros k Hk. apply lookup_insert_ne. congruence.
      * rewrite lookup_insert_eq, Hrepo. reflexivity.
  - split; [reflexivity|]. split; [reflexivity|].
    intros a Habs. rewrite Habs in Hrepo. change (repos pm !! a = None) in Hrepo.
    split; [reflexivity|]. rewrite Hrepo. reflexivity.
Qed.

(** X19: when the working directory cannot be read, a relative path does
    not canonicalise: it is reported as unprotected, no guard is found for
    it, every password is admitted, and [Protect] and [Unprotect] return
    an error and leave the registry as it was, whatever the registry
    holds. *)
Theorem X19_relative_path_without_working_directory (pm : ProtectedRepoManager)
    (p password : string) (now : Z) (saved : option error) :
  IsAbs p = false ->
  IsProtected None pm p = false
  /\ GetProtection None pm p = None
  /\ VerifyAccess None pm p password = true
  /\ (exists err, Protect None now saved pm p password = (Some err, pm))
  /\ (exists err, Unprotect None saved pm p password = (Some err, pm)).
Proof.
  intros Hrel.
  assert (Habs : Abs None p = None) by (unfold Abs; rewrite Hrel; reflexivity).
  unfold VerifyAccess, IsProtected, GetProtection, Protect, Unprotect. rewrite Habs.
  repeat split; eauto.
Qed.

(** X20: on a working directory that no guard covers, [handleProtect]
    protects it; a second [handleProtect] then only warns and changes
    nothing; and [handleUnprotect], given the same password at its prompt,
    removes the guard and leaves the registry as it was at the start. *)
Theorem X20_handlers_roundtrip (cwd : string) (now now' : Z) (args args' : list string)
    (prompt prompt' : string) (saved' : option error) (pm : ProtectedRepoManager) :
  IsProtected (Some cwd) pm cwd = false ->
  exists pm',
    (handleProtect (Ok cwd) now None args prompt pm).1 = (None, pm')
    /\ IsProtected (Some cwd) pm' cwd = true
    /\ handleProtect (Ok cwd) now' saved' args' prompt' pm'
       = (None, pm', [UIWarning "This repository is already protected"])
    /\ handleUnprotect (Ok cwd) None prompt pm'
       = (None, pm, [UISuccess "Protection removed"]).
Proof.
  intros Hfree. destruct (Abs_with_wd cwd cwd) as [a Habs].
  assert (Hnone : repos pm !! a = None).
  { destruct (repos pm !! a) eqn:Ha; [|reflexivity].
    rewrite (IsProtected_exact _ pm cwd a Habs) in Hfree by eauto. discriminate. }
  set (password := if wants_password args then prompt else "").
  pose proof (Protect_lookup (Some cwd) now None pm cwd password a Habs) as Hget.
  pose proof (Unprotect_after_Protect (Some cwd) now None None pm cwd password a Habs)
    as Hback.
  rewrite delete_id, with_repos_id in Hback by exact Hnone.
  assert (Hspec := Protect_spec (Some cwd) now None pm cwd password a Habs).
  set (pm' := (Protect (Some cwd) now None pm cwd password).2) in *.
  assert (Hprot : IsProtected (Some cwd) pm' cwd = true).
  { apply (IsProtected_exact _ _ _ a Habs). subst pm'. rewrite Hspec.
    cbn [snd with_repos repos]. rewrite lookup_insert_eq. eauto. }
  exists pm'.
  split; [|split; [exact Hprot|split]].
  - unfold handleProtect. rewrite Hfree. fold password. subst pm'.
    rewrite Hspec. reflexivity.
  - unfold handleProtect. rewrite Hprot. reflexivity.
  - unfold handleUnprotect. rewrite Hget. cbn [guard_for Password].
    replace (if negb (String.eqb (if negb (String.eqb password "")
                                  then hashPassword password else "") "")
             then prompt else "") with password.
    + rewrite Hback. reflexivity.
    + subst password. destruct (wants_password args); [|reflexivity].
      destruct (String.eqb_spec prompt "") as [->|Hne]; [reflexivity|]. cbn [negb].
      destruct (String.eqb_spec (hashPassword prompt) "") as [Hempty|_]; [|reflexivity].
      destruct (hashPassword_nonempty _ Hempty).
Qed.

Lemma X16_Protect_witness :
  let pm' := (Protect None 7 None (NewProtectedRepoManager "protected.json")
                      "/srv/repo" "ab").2 in
  IsProtected None pm' "/srv/repo" = true
  /\ VerifyAccess None pm' "/srv/repo" "ab" = true.
Proof.
  intros pm'.
  destruct (X16_Protect_then_lookups None 7 None (NewProtectedRepoManager "protected.json")
              "/srv/repo" "ab" "/srv/repo") as (Hprot & _ & Hver & _).
  - reflexivity.
  - split; [exact Hprot | exact Hver].
Defined.

Lemma X17_roundtrip_witness :
  Unprotect None None (Protect None 7 None guarded_ab "/srv/repo" "ab").2 "/srv/repo" "ab"
  = (None, guarded_ab).
Proof.
  apply (X17_Protect_Unprotect_roundtrip None 7 None None guarded_ab
           "/srv/repo" "ab" "/srv/repo").
  - reflexivity.
  - vm_compute. reflexivity.
Defined.

Lemma X19_relative_witness :
  IsProtected None guarded_ab "b" = false
  /\ GetProtection None guarded_ab "b" = None
  /\ VerifyAccess None guarded_ab "b" "" = true
  /\ (exists err, Protect None 0 None guarded_ab "b" "" = (Some err, guarded_ab))
  /\ (exists err, Unprotect None None guarded_ab "b" "" = (Some err, guarded_ab)).
Proof.
  apply (X19_relative_path_without_working_directory guarded_ab "b" "" 0 None).
  reflexivity.
Defined.

(** The registry holding one guard, without password, at [/srv/repo/sub]. *)
Definition guarded_sub : ProtectedRepoManager :=
  (Protect None 0 None (NewProtectedRepoManager "protected.json") "/srv/repo/sub" "").2.

Lemma X20_handlers_witness :
  exists pm',
    (handleProtect (Ok "/srv/repo") 7 None ["--password"] "ab" guarded_sub).1 = (None, pm')
    /\ IsProtected (Some "/srv/repo") pm' "/srv/repo" = true
    /\ handleProtect (Ok "/srv/repo") 8 None [] "" pm'
       = (None, pm', [UIWarning "This repository is already protected"])
    /\ handleUnprotect (Ok "/srv/repo") None "ab" pm'
       = (None, guarded_sub, [UISuccess "Protection removed"]).
Proof.
  apply (X20_handlers_roundtrip "/srv/repo" 7 8 ["--password"] [] "ab" "" None guarded_sub).
  vm_compute. reflexivity.
Defined.

End RegistryMore.

(** ** The threshold watcher, continued *)

Module WatcherMore.
Import GoStd Registry Watcher WatcherFacts TextFacts.

(** *** Splitting and suffixes *)

Lemma Split_nonempty (c : ascii) (s : string) : Split c s <> [].
Proof.
  destruct s as [|x s]; cbn; [discriminate|].
  destruct (Ascii.eqb x c); [discriminate|]. destruct (Split c s); discriminate.
Qed.

Lemma Split_app (c : ascii) (a b : string) :
  Split c (a +:+ String c b) = Split c a ++ Split c b.
Proof.
  induction a as [|x a IH]; rewrite ?append_cons, ?append_nil_l; cbn [Split].
  - rewrite Ascii.eqb_refl. reflexivity.
  - rewrite IH. destruct (Ascii.eqb x c); [reflexivity|].
    pose proof (Split_nonempty c a) as Hne.
    destruct (Split c a) as [|h t]; [congruence | reflexivity].
Qed.

Lemma Split_all_lack (c : ascii) (s : string) :
  Forall (fun e => lacks c e = true) (Split c s).
Proof.
  induction s as [|x s IH]; cbn [Split].
  - repeat constructor.
  - destruct (Ascii.eqb x c) eqn:Hx; [constructor; [reflexivity | exact IH]|].
    destruct (Split c s) as [|h t]; [repeat constructor; cbn; rewrite Hx; reflexivity|].
    inversion IH as [|? ? Hh Ht]; subst. constructor; [|exact Ht].
    cbn. rewrite Hx, Hh. reflexivity.
Qed.

Lemma list_ascii_append (a b : string) :
  list_ascii_of_string (a +:+ b) = list_ascii_of_string a ++ list_ascii_of_string b.
Proof. by_append_induction a. Qed.

Lemma string_of_list_app (l l' : list ascii) :
  string_of_list_ascii (l ++ l') = string_of_list_ascii l +:+ string_of_list_ascii l'.
Proof.
  induction l as [|x l IH]; cbn; rewrite ?append_cons, ?append_nil_l; [reflexivity|].
  rewrite IH. reflexivity.
Qed.

Lemma strrev_append (a b : string) : strrev (a +:+ b) = strrev b +:+ strrev a.
Proof. unfold strrev. rewrite list_ascii_append, rev_app_distr. apply string_of_list_app. Qed.

Lemma HasSuffix_append (a b : string) : HasSuffix (a +:+ b) b = true.
Proof. unfold HasSuffix. rewrite strrev_append. apply HasPrefix_append. Qed.

Lemma TrimSuffix_append (a b : string) : TrimSuffix (a +:+ b) b = a.
Proof.
  unfold TrimSuffix. rewrite HasSuffix_append, length_append.
  replace (String.length a + String.length b - String.length b)%nat
    with (String.length a) by lia.
  apply substring_prefix.
Qed.

(** *** [RepoName] *)

Lemma RepoName_total (url : string) :
  exists name, RepoName (Ok url) = Ok name /\ lacks "/" name = true.
Proof.
  unfold RepoName. pose proof (Split_all_lack "/" (TrimSuffix url ".git")) as Hall.
  pose proof (Split_nonempty "/" (TrimSuffix url ".git")) as Hne.
  destruct (last (Split "/" (TrimSuffix url ".git"))) as [name|] eqn:Hlast.
  - exists name. split; [reflexivity|].
    apply last_Some in Hlast as [l' Hl]. rewrite Hl in Hall.
    apply Forall_app in Hall as [_ Hall]. inversion Hall; assumption.
  - apply last_None in Hlast. congruence.
Qed.

(** X21: [RepoName] never reports its parse error: for every URL that
    [git remote get-url] gives it returns the text after the last [/] of
    the URL without its [.git] suffix, which holds no [/]. *)
Theorem X21_RepoName_last_segment (url : string) :
  (exists name, RepoName (Ok url) = Ok name /\ lacks "/" name = true)
  /\ (forall prefix base, lacks "/" base = true ->
        (url = prefix +:+ "/" +:+ base +:+ ".git" -> RepoName (Ok url) = Ok base)
        /\ (url = prefix +:+ "/" +:+ base -> HasSuffix url ".git" = false ->
            RepoName (Ok url) = Ok base)).
Proof.
  split; [apply RepoName_total|]. intros prefix base Hbase.
  assert (Hlast : last (Split "/" (prefix +:+ "/" +:+ base)) = Some base).
  { change ("/" +:+ base) with (String "/" base).
    rewrite Split_app, (Split_lacks _ _ Hbase). apply last_snoc. }
  split.
  - intros ->. unfold RepoName.
    replace (prefix +:+ "/" +:+ base +:+ ".git") with ((prefix +:+ "/" +:+ base) +:+ ".git")
      by (rewrite !append_assoc; reflexivity).
    rewrite TrimSuffix_append, Hlast. reflexivity.
  - intros -> Hsuffix. unfold RepoName, TrimSuffix. rewrite Hsuffix, Hlast. reflexivity.
Qed.

Lemma lacks_not_abs (name : string) : lacks "/" name = true -> IsAbs name = false.
Proof.
  destruct name as [|x r]; [reflexivity|]. cbn [lacks].
  intros [Hx _]%andb_true_iff. apply negb_true_iff in Hx.
  unfold IsAbs. cbn [HasPrefix]. rewrite Ascii.eqb_sym, Hx. reflexivity.
Qed.

Lemma repoName_relative (url : result string) :
  IsAbs (value_or "" (RepoName url)) = false.
Proof.
  destruct url as [url|err]; [|reflexivity].
  destruct (RepoName_total url) as (name & -> & Hname). apply lacks_not_abs, Hname.
Qed.

Section WithLibraries.
Context {S : GoStrings} {T : GoTime} {F : GoFmt}.

(** *** Runs *)







(** X24: when the working directory cannot be read during a poll, the
    registry is asked about a name that cannot be canonicalised and answers
    that it is not protected: [push] calls the publish executor whatever
    guards the registry holds. *)
Theorem X24_push_without_working_directory (w : Watcher) (p : Poll) :
  Getwd p = None ->
  let repoName := value_or "" (RepoName (GetRemoteURL p)) in
  push w p
  = (Push p,
     match Push p with Some _ => w | None => set_lastPushTime (NowPushed p) w end,
     [CallIsProtected repoName false; CallPush (remote w) (branch w)]).
Proof.
  intros Hwd repoName. unfold push. fold repoName.
  assert (Hfree : IsProtected (Getwd p) (ProtectedRepos p) repoName = false).
  { unfold IsProtected, Abs. rewrite Hwd. unfold repoName.
    rewrite repoName_relative. reflexivity. }
  rewrite Hfree. destruct (Push p); reflexivity.
Qed.

(** *** [ParseSize] *)

Lemma all_digits_rev (l : list ascii) :
  all_digits (string_of_list_ascii l) = true ->
  all_digits (string_of_list_ascii (rev l)) = true.
Proof.
  induction l as [|x l IH]; [reflexivity|]. cbn [rev string_of_list_ascii all_digits].
  intros [Hx Hl]%andb_true_iff. rewrite string_of_list_app, all_digits_append, (IH Hl).
  cbn. rewrite Hx. reflexivity.
Qed.

(** A string of digits ends in none of the unit suffixes. *)
Lemma digits_no_unit (d : string) (u1 u2 : ascii) :
  all_digits d = true -> is_digit u2 = false ->
  HasSuffix d (String u1 (String u2 "")) = false.
Proof.
  intros Hd Hu. unfold HasSuffix.
  assert (Hrev : all_digits (strrev d) = true).
  { unfold strrev. apply all_digits_rev. rewrite string_of_list_ascii_of_string. exact Hd. }
  change (strrev (String u1 (String u2 ""))) with (String u2 (String u1 "")).
  destruct (strrev d) as [|x r]; [reflexivity|]. cbn [HasPrefix].
  destruct (Ascii.eqb_spec u2 x) as [<-|]; [|reflexivity].
  cbn [all_digits] in Hrev. rewrite Hu in Hrev. discriminate.
Qed.

Lemma int64_small (z : Z) : 0 <= z <= MaxInt64 -> int64 z = z.
Proof. unfold int64, MaxInt64. intros Hz. rewrite Z.mod_small; lia. Qed.

Lemma digits_value_stops (c : ascii) (a b : string) (acc : Z) :
  is_digit c = false -> digits_value acc (a +:+ String c b) = None.
Proof.
  intros Hc. revert acc. induction a as [|x a IH]; intros acc;
    rewrite ?append_cons, ?append_nil_l; cbn [digits_value].
  - rewrite Hc. reflexivity.
  - destruct (is_digit x); [apply IH | reflexivity].
Qed.

(** [ParseInt] on the digits of a non-negative number: the number, or the
    largest [int64] when it does not fit. *)
Lemma ParseInt_Itoa (n : Z) : 0 <= n -> (ParseInt (Itoa n)).1 = Z.min n MaxInt64.
Proof.
  intros Hn. destruct (Itoa_digits n Hn) as [Hd Hne].
  pose proof (digits_value_Itoa n Hn) as Hv.
  destruct (Itoa n) as [|x r]; [congruence|].
  cbn [all_digits] in Hd. apply andb_true_iff in Hd as [Hx _].
  rewrite (ParseInt_digit_first x r Hx), Hv.
  destruct (Z.ltb_spec n MinInt64) as [Hlt|_]; [unfold MinInt64 in Hlt; lia|].
  destruct (Z.ltb_spec MaxInt64 n); cbn [fst]; lia.
Qed.

(** X25: [ParseSize] reads a non-negative decimal number followed by
    nothing, [KB], [MB] or [GB] (after trimming and upper-casing) as that
    number, capped at the largest [int64], times 1, 1024, 1024^2 or
    1024^3, the product wrapping around like [int64].  When the product of
    the number and the unit fits [int64] the result is that product; a
    larger one wraps, and when the result is zero or negative every poll
    under the size threshold that reads a size of at least 0 triggers. *)
Theorem X25_ParseSize_units (s unit : string) (n mult : Z) :
  0 <= n ->
  In (unit, mult) [("", 1); ("KB", 1024); ("MB", 1024 * 1024); ("GB", 1024 * 1024 * 1024)] ->
  ToUpper (TrimSpace s) = Itoa n +:+ unit ->
  TrimSpace (Itoa n) = Itoa n ->
  ParseSize s = int64 (Z.min n MaxInt64 * mult)
  /\ (n * mult <= MaxInt64 -> ParseSize s = n * mult)
  /\ (ParseSize s <= 0 ->
      forall w p size,
        thresholdType w = ThresholdSize -> thresholdValue w = s ->
        UnpushedChangesSize p = Ok size -> 0 <= size ->
        (checkThreshold w p).1.1 = true).
Proof.
  intros Hn Hunit Hupper Htrim.
  destruct (Itoa_digits n Hn) as [Hd _].
  assert (Hmult : 1 <= mult).
  { cbn in Hunit. repeat destruct Hunit as [[= <- <-]|Hunit]; (lia || contradiction). }
  assert (Hread : (ParseInt (TrimSpace (Itoa n))).1 = Z.min n MaxInt64).
  { rewrite Htrim. apply ParseInt_Itoa, Hn. }
  assert (Hpair : (if HasSuffix (Itoa n +:+ unit) "KB"
                   then (1024, TrimSuffix (Itoa n +:+ unit) "KB")
                   else if HasSuffix (Itoa n +:+ unit) "MB"
                   then (1024 * 1024, TrimSuffix (Itoa n +:+ unit) "MB")
                   else if HasSuffix (Itoa n +:+ unit) "GB"
                   then (1024 * 1024 * 1024, TrimSuffix (Itoa n +:+ unit) "GB")
                   else (1, Itoa n +:+ unit)) = (mult, Itoa n)).
  { cbn in Hunit. destruct Hunit as [[= <- <-]|[[= <- <-]|[[= <- <-]|[[= <- <-]|[]]]]].
    - rewrite append_nil_r, !digits_no_unit by (exact Hd || reflexivity). reflexivity.
    - rewrite HasSuffix_append, TrimSuffix_append. reflexivity.
    - replace (HasSuffix (Itoa n +:+ "MB") "KB") with false.
      + rewrite HasSuffix_append, TrimSuffix_append. reflexivity.
      + unfold HasSuffix. rewrite strrev_append. reflexivity.
    - replace (HasSuffix (Itoa n +:+ "GB") "KB") with false
        by (unfold HasSuffix; rewrite strrev_append; reflexivity).
      replace (HasSuffix (Itoa n +:+ "GB") "MB") with false
        by (unfold HasSuffix; rewrite strrev_append; reflexivity).
      rewrite HasSuffix_append, TrimSuffix_append. reflexivity. }
  assert (Hgo : ParseSize s = int64 (Z.min n MaxInt64 * mult)).
  { unfold ParseSize. rewrite Hupper, Hpair, Hread. reflexivity. }
  split; [exact Hgo|]. split.
  - intros Hfit. rewrite Hgo.
    assert (n <= MaxInt64) by nia.
    rewrite Z.min_l by assumption. apply int64_small. nia.
  - intros Hneg w p size Hty Hval Hsize Hpos.
    rewrite (checkThreshold_size w p Hty), Hsize, Hval. cbn zeta.
    destruct (Z.leb_spec (ParseSize s) size); [reflexivity | lia].
Qed.

(** X26: [ParseSize] does not read back what [FormatSize] prints for
    fewer than 1024 bytes: the text [<n> B] has none of the three suffixes
    and is not a number, so the result is 0. *)
Theorem X26_ParseSize_of_bytes_text (n : Z) :
  0 <= n < 1024 ->
  ToUpper (TrimSpace (Itoa n +:+ " B")) = Itoa n +:+ " B" ->
  TrimSpace (Itoa n +:+ " B") = Itoa n +:+ " B" ->
  FormatSize n = Itoa n +:+ " B" /\ ParseSize (FormatSize n) = 0.
Proof.
  intros [Hn Hsmall] Hupper Htrim.
  assert (Hfmt : FormatSize n = Itoa n +:+ " B").
  { unfold FormatSize.
    destruct (Z.leb_spec (1024 * 1024 * 1024) n); [lia|].
    destruct (Z.leb_spec (1024 * 1024) n); [lia|].
    destruct (Z.leb_spec 1024 n); [lia|]. reflexivity. }
  split; [exact Hfmt|]. rewrite Hfmt. unfold ParseSize. rewrite Hupper.
  assert (Hno : forall u, u = "KB" \/ u = "MB" \/ u = "GB" ->
                          HasSuffix (Itoa n +:+ " B") u = false).
  { intros u Hu. unfold HasSuffix. rewrite strrev_append.
    destruct Hu as [-> | [-> | ->]]; reflexivity. }
  rewrite !Hno by auto. rewrite Htrim.
  destruct (Itoa_digits n Hn) as [Hd Hne].
  destruct (Itoa n) as [|x r] eqn:Hitoa; [congruence|].
  cbn [all_digits] in Hd. apply andb_true_iff in Hd as [Hx _].
  rewrite append_cons, (ParseInt_digit_first x _ Hx), <- append_cons.
  rewrite digits_value_stops by reflexivity. reflexivity.
Qed.

End WithLibraries.

Import Sample.


(** A poll in which the working directory cannot be read, while the
    registry guards [/home/u/proj]. *)
Definition poll_lost : Poll :=
  {| PendingCommitCount := Ok 3; PendingCommitCountAgain := Ok 3;
     UnpushedChangesSize := Ok 0; GetRemoteURL := Ok github; Push := None;
     Getwd := None; ProtectedRepos := guarded_proj;
     Now := 30; NowPushed := 31 |}.

Lemma X24_lost_directory_witness :
  push (watcher_of ThresholdCommits "3") poll_lost
  = (None, set_lastPushTime 31 (watcher_of ThresholdCommits "3"),
     [CallIsProtected "proj" false; CallPush "origin" "main"]).
Proof.
  apply (X24_push_without_working_directory (watcher_of ThresholdCommits "3") poll_lost).
  reflexivity.
Defined.

Lemma X25_ParseSize_witness :
  ParseSize " 5mb " = 5 * (1024 * 1024)
  /\ ParseSize "8589934592GB" = int64 (8589934592 * (1024 * 1024 * 1024)).
Proof.
  split.
  - apply (X25_ParseSize_units " 5mb " "MB" 5 (1024 * 1024)).
    + lia.
    + cbn. auto.
    + vm_compute. reflexivity.
    + vm_compute. reflexivity.
    + vm_compute. discriminate.
  - apply (X25_ParseSize_units "8589934592GB" "GB" 8589934592 (1024 * 1024 * 1024)).
    + lia.
    + cbn. auto 6.
    + vm_compute. reflexivity.
    + vm_compute. reflexivity.
Defined.

(** A size of 2^33 GB is 2^63 bytes, one more than [int64] holds: the
    threshold wraps to the smallest [int64], and a poll that finds nothing
    to push triggers. *)
Lemma ParseSize_wraps :
  ParseSize "8589934592GB" = MinInt64
  /\ (tick (watcher_of ThresholdSize "8589934592GB") (poll_of 0 github no_guards 10)).2
     = [CbOnCheck ThresholdSize "0 B" (Itoa MinInt64 +:+ " B");
        CallIsProtected "proj" false; CallPush "origin" "main";
        CbOnPush "origin" "main" 0].
Proof. vm_compute. split; reflexivity. Qed.

Lemma X26_bytes_text_witness :
  FormatSize 512 = Itoa 512 +:+ " B" /\ ParseSize (FormatSize 512) = 0.
Proof.
  apply (X26_ParseSize_of_bytes_text 512).
  - lia.
  - vm_compute. reflexivity.
  - vm_compute. reflexivity.
Defined.

End WatcherMore.
